(** * Gosto: a shallow embedding of the batched datastore wrapper

    The development follows [gosto.go] and [query.go]: key extraction,
    the chunked [PutMulti] / [GetMulti] / [DeleteMulti] dispatchers, the
    error collapser [realError], the inspection helper [NotFound], and the
    query side ([GetAll], [Iterator.Next]).

    Go's [int] is a [Z]: the lengths and products the code computes stay
    far inside the 64-bit range for any slice that fits in memory, and the
    one operation whose rounding matters, the division, is written with
    [Z.quot].  A slice is a [list]; an [error] interface value is an
    [option error] with [None] for [nil]; a run-time panic is the [None]
    of an outer [option].  The datastore client, the [fmt] verbs and the
    reflection helpers that live outside the two files are the fields of the
    class [Host]. *)

From Stdlib Require Import DecimalString.
From stdpp Require Import base numbers list list_numbers strings.

Open Scope Z_scope.
Set Warnings "-register-all".

(** ** Values of the datastore package *)

(** [*datastore.Key]: a kind, a numeric or a string identity, a parent. *)
Inductive Key : Type :=
  mkKey { Kind : string; ID : Z; Name : string; Parent : option Key }.

(** [Key.Incomplete]: neither a name nor a numeric id. *)
Definition Incomplete (k : Key) : bool :=
  String.eqb (Name k) EmptyString && (ID k =? 0).

(** Dynamic values an [error] interface can hold.  The three package-level
    sentinels are compared by identity, so each is a constructor of its own;
    [errorString] stands for the values of [fmt.Errorf] and [errors.New],
    which the code never compares with [==]. *)
Inductive error : Type :=
  | ErrNoSuchEntity
  | ErrInvalidEntityType
  | ErrInvalidKey
  | ErrFieldMismatch (StructType FieldName Reason : string)
  | errorString (s : string)
  | MultiError (errs : list (option error)).

(** [len] of a slice, as a Go [int]. *)
Definition len {A} (l : list A) : Z := Z.of_nat (length l).

(** [s[lo:hi]] for [0 <= lo <= hi <= len(s)]. *)
Definition slice {A} (s : list A) (lo hi : Z) : list A :=
  take (Z.to_nat (hi - lo)) (drop (Z.to_nat lo) s).

(** [make([]T, n)] with the zero value [z]. *)
Definition make {A} (z : A) (n : Z) : list A := replicate (Z.to_nat n) z.

(** The builtin [copy(dst[lo:hi], src)]: the first [min (hi-lo) (len src)]
    elements of [src] land at [dst[lo..]]. *)
Definition copy {A} (dst : list A) (lo hi : Z) (src : list A) : list A :=
  list_inserts (Z.to_nat lo) (take (Z.to_nat (hi - lo)) src) dst.

(** [for j := lo; j < hi; j++ { a[j] = x }]. *)
Definition fill {A} (a : list A) (lo hi : Z) (x : A) : list A :=
  foldl (fun acc j => <[Z.to_nat j := x]> acc) a (seqZ lo (hi - lo)).

(** Service calls seen by the datastore client, in the order issued. *)
Inductive Call (Entity : Type) : Type :=
  | CallPutMulti (keys : list Key) (src : list Entity)
  | CallGetMulti (keys : list Key) (dst : list Entity)
  | CallDeleteMulti (keys : list Key).
Arguments CallPutMulti {Entity} keys src.
Arguments CallGetMulti {Entity} keys dst.
Arguments CallDeleteMulti {Entity} keys.

(** What [reflect] reports about the element type of a destination slice. *)
Inductive ElemKind : Type :=
  | ElemStruct
  | ElemPtrStruct
  | ElemOther (ptr : bool) (kind : string).

(** The [dst] argument of [GetAll]. *)
Inductive AllDst (Entity : Type) : Type :=
  | DstNil
  | DstNotPtr (kind : string)
  | DstPtrNotSlice (kind : string)
  | DstPtrSlice (elem : ElemKind) (items : list Entity).
Arguments DstNil {Entity}.
Arguments DstNotPtr {Entity} kind.
Arguments DstPtrNotSlice {Entity} kind.
Arguments DstPtrSlice {Entity} elem items.

(** Everything the two files take from outside: the entity values handed
    to the API, the [fmt] verbs, the struct-key helpers of the package's
    reflection file, and the datastore client. *)
Class Host : Type := {
  Entity : Type;
  (** the [%q] verb on a string *)
  fmt_q : string -> string;
  (** the [%v] and [%#v] verbs on an entity *)
  fmt_v : Entity -> string;
  fmt_sharp_v : Entity -> string;
  (** [reflect.ValueOf(dst).Kind() == reflect.Ptr] *)
  isPtr : Entity -> bool;
  (** [g.getStructKey(src)]: the key, the has-string-id flag, or an error *)
  getStructKey : Entity -> (Key * bool) + error;
  (** [g.setStructKey(dst, key)]: the stamped entity and the error *)
  setStructKey : Entity -> option Key -> Entity * option error;
  (** [reflect.New(elemType)] as an entity *)
  zeroValue : Entity;
  (** [datastore.PutMulti(keys, src)] *)
  ds_PutMulti : list Key -> list Entity -> list Key * option error;
  (** [datastore.GetMulti(ctx, keys, dst)]: the loaded destinations and the
      error *)
  ds_GetMulti : list Key -> list Entity -> list Entity * option error;
  (** [datastore.DeleteMulti(ctx, keys)] *)
  ds_DeleteMulti : list Key -> option error;
  (** a [*datastore.Query] and [DSClient.GetAll]: keys, the destination
      slice after the client appended to it, the error *)
  Query : Type;
  ds_GetAll : Query -> AllDst Entity -> list Key * list Entity * option error;
  (** a [*datastore.Iterator]; its [Next], and what that [Next] loads into
      a non-nil destination *)
  DsIterator : Type;
  ds_Next : DsIterator -> DsIterator * option Key * option error;
  ds_load : DsIterator -> Entity -> Entity
}.

(** ** Error texts *)

Definition dquote : string := String (Ascii.ascii_of_nat 34) EmptyString.

Definition decimal (n : nat) : string := NilZero.string_of_uint (Nat.to_uint n).

(** The [Error()] method of each dynamic type; for [MultiError] the text
    of the first non-nil element and a count of the others. *)
Fixpoint Error `{Host} (e : error) : string :=
  match e with
  | ErrNoSuchEntity => "datastore: no such entity"
  | ErrInvalidEntityType => "datastore: invalid entity type"
  | ErrInvalidKey => "datastore: invalid key"
  | ErrFieldMismatch st fn r =>
      "datastore: cannot load field " +:+ fmt_q fn +:+ " into a " +:+ fmt_q st
        +:+ ": " +:+ r
  | errorString s => s
  | MultiError errs =>
      let fix count (l : list (option error)) (s : string) (n : nat)
        : string * nat :=
        match l with
        | [] => (s, n)
        | None :: l' => count l' s n
        | Some x :: l' =>
            count l' (match n with O => Error x | _ => s end) (S n)
        end in
      match count errs EmptyString O with
      | (_, O) => "(0 errors)"
      | (s, 1%nat) => s
      | (s, 2%nat) => s +:+ " (and 1 other error)"
      | (s, S m) => s +:+ " (and " +:+ decimal m +:+ " other errors)"
      end
  end.

(** The type assertion of [err] to a pointer to [datastore.ErrFieldMismatch]. *)
Definition errFieldMismatch (err : option error) : bool :=
  match err with
  | Some (ErrFieldMismatch _ _ _) => true
  | _ => false
  end.

(** [err == datastore.ErrNoSuchEntity] on interface values. *)
Definition isErrNoSuchEntity (err : option error) : bool :=
  match err with
  | Some ErrNoSuchEntity => true
  | _ => false
  end.

(** [err == datastore.ErrInvalidEntityType] on interface values. *)
Definition isErrInvalidEntityType (err : option error) : bool :=
  match err with
  | Some ErrInvalidEntityType => true
  | _ => false
  end.

(** ** The collapser *)

(** One round of the loop body of [realError]: [true] when slot [e] makes
    the loop return the whole array. *)
Definition differs `{Host} (init e : option error) : bool :=
  match init, e with
  | None, None => false
  | None, Some _ | Some _, None => true
  | Some a, Some b => negb (String.eqb (Error a) (Error b))
  end.

(** The loop [for i := 1; i < len(multiError); i++] over the slots after
    the first: [true] when it returns early. *)
Fixpoint realError_loop `{Host} (init : option error)
  (rest : list (option error)) : bool :=
  match rest with
  | [] => false
  | e :: rest' => if differs init e then true else realError_loop init rest'
  end.

Definition realError `{Host} (multiError : list (option error)) : option error :=
  match multiError with
  | [] => None
  | init :: rest =>
      if realError_loop init rest then Some (MultiError multiError)
      else if errFieldMismatch init then Some (MultiError multiError)
      else if isErrInvalidEntityType init || isErrNoSuchEntity init
           then Some (MultiError multiError)
      else init
  end.

(** [NotFound(err, idx)]; the outer [None] is the index-out-of-range panic
    of [merr[idx]] at a negative [idx]. *)
Definition NotFound (err : option error) (idx : Z) : option bool :=
  match err with
  | Some (MultiError merr) =>
      if idx <? len merr then
        if idx <? 0 then None
        else Some (isErrNoSuchEntity (default None (merr !! Z.to_nat idx)))
      else Some false
  | _ => Some false
  end.

(** ** The client *)

(** The [Gosto] struct; its context, datastore client and kind-name
    resolver are behind [Host]. *)
Record Gosto : Type := { inTransaction : bool }.

(** The [interface{}] handed to a batch operation, after
    [reflect.Indirect(reflect.ValueOf(src))]: a slice or anything else. *)
Inductive Src (Entity : Type) : Type :=
  | SliceOf (items : list Entity)
  | NotSlice.
Arguments SliceOf {Entity} items.
Arguments NotSlice {Entity}.

(** The loop of [extractKeys] over the elements still to visit. *)
Fixpoint extractKeys_loop `{Host} (items : list Entity) (putRequest : bool)
  : list Key + error :=
  match items with
  | [] => inl []
  | vi :: rest =>
      match getStructKey vi with
      | inr err => inr err
      | inl (key, hasStringID) =>
          if negb putRequest && Incomplete key then
            inr (errorString
                   ("Gosto: cannot find a key for struct - " +:+ fmt_v vi))
          else if putRequest && Incomplete key && hasStringID then
            inr (errorString "Gosto: empty string id on put")
          else
            match extractKeys_loop rest putRequest with
            | inl keys => inl (key :: keys)
            | inr err => inr err
            end
      end
  end.

Definition extractKeys `{Host} (src : Src Entity) (putRequest : bool)
  : list Key + error :=
  match src with
  | NotSlice =>
      inr (errorString "Gosto: value must be a slice or pointer-to-slice")
  | SliceOf items => extractKeys_loop items putRequest
  end.

(** [KeyError]: the key of [src] and the error of its derivation. *)
Definition KeyError `{Host} (src : Entity) : option Key * option error :=
  match getStructKey src with
  | inl (key, _) => (Some key, None)
  | inr err => (None, Some err)
  end.

(** [Key] of the client: the key of [src], nil on error. *)
Definition Gosto_Key `{Host} (src : Entity) : option Key :=
  match KeyError src with
  | (k, None) => k
  | (_, Some _) => None
  end.

(** [Kind] of the client: the kind of the key of [src], empty on error;
    the outer [None] is the nil dereference of [k.Kind]. *)
Definition Gosto_Kind `{Host} (src : Entity) : option string :=
  match KeyError src with
  | (k, None) => Kind <$> k
  | (_, Some _) => Some EmptyString
  end.

(** ** Chunked dispatch *)

Definition putMultiLimit : Z := 500.
Definition getMultiLimit : Z := 1000.
Definition deleteMultiLimit : Z := 500.

(** [(n-1)/limit + 1] with Go's division, which truncates toward zero. *)
Definition goroutines (n limit : Z) : Z := (n - 1) `quot` limit + 1.

(** [lo] and [hi] of the goroutine started with [i], for [n] keys. *)
Definition chunk (n limit i : Z) : Z * Z :=
  let lo := i * limit in
  let hi := (i + 1) * limit in
  let hi := if hi >? n then n else hi in
  (lo, hi).

(** The ranges of [for i := 0; i < goroutines; i++], in start order. *)
Definition plan (n limit : Z) : list (Z * Z) :=
  chunk n limit <$> seqZ 0 (goroutines n limit).

(** What the goroutines of one call share: the outcome array, the flag
    under the mutex, and the log of service calls. *)
Record Shared `{Host} : Type := mkShared {
  multiErr : list (option error);
  anyFlag : bool;
  calls : list (Call Entity)
}.
Arguments mkShared {H} multiErr anyFlag calls.

(** The order in which the goroutines of a call run their bodies, given
    how many were started.  A goroutine body is one service call followed
    by writes into its own index range, so any interleaving of the bodies
    has the effect of one of these orders. *)
Definition Schedule : Type := Z -> list Z.

Definition valid_schedule (sched : Schedule) : Prop :=
  forall g, Permutation (sched g) (seqZ 0 g).

(** The goroutines finish in the order they were started. *)
Definition in_order : Schedule := seqZ 0.

(** Body of the goroutine of [PutMulti] started with [i]. *)
Definition PutMulti_task `{Host} (keys : list Key) (v : list Entity)
  (s : Shared) (i : Z) : Shared :=
  let '(lo, hi) := chunk (len keys) putMultiLimit i in
  let '(rkeys, pmerr) := ds_PutMulti (slice keys lo hi) (slice v lo hi) in
  let log := calls s ++ [CallPutMulti (slice keys lo hi) (slice v lo hi)] in
  match pmerr with
  | None => mkShared (multiErr s) (anyFlag s) log
  | Some (MultiError merr) => mkShared (copy (multiErr s) lo hi merr) true log
  | Some e => mkShared (fill (multiErr s) lo hi (Some e)) true log
  end.

Definition items_of {A} (src : Src A) : list A :=
  match src with
  | SliceOf items => items
  | NotSlice => []
  end.

(** The fan-out of [PutMulti] up to [wg.Wait()]: what the goroutines leave
    in the shared state. *)
Definition PutMulti_dispatch `{Host} (sched : Schedule) (keys : list Key)
  (v : list Entity) : Shared :=
  foldl (PutMulti_task keys v) (mkShared (make None (len keys)) false [])
    (sched (goroutines (len keys) putMultiLimit)).

Definition PutMulti `{Host} (sched : Schedule) (src : Src Entity)
  : list Key * option error * list (Call Entity) :=
  match extractKeys src true with
  | inr err => ([], Some err, [])
  | inl keys =>
      let v := items_of src in
      let s := PutMulti_dispatch sched keys v in
      if anyFlag s then (keys, realError (multiErr s), calls s)
      else (keys, None, calls s)
  end.

(** [Put]; the outer [option] is [None] when [me[0]] or [ks[0]] is out of
    range. *)
Definition Put `{Host} (sched : Schedule) (src : Entity)
  : option (option Key * option error * list (Call Entity)) :=
  let '(ks, err, log) := PutMulti sched (SliceOf [src]) in
  match err with
  | Some (MultiError me) => e ← me !! 0%nat; Some (None, e, log)
  | Some e => Some (None, Some e, log)
  | None => k ← ks !! 0%nat; Some (Some k, None, log)
  end.

(** The loop of the in-transaction branch of [GetMulti] over an itemized
    error [merr]; [None] is the panic of [merr[i]] on a short [merr]. *)
Definition GetMulti_tx_step (ignoreFieldMismatch : bool)
  (merr : list (option error))
  (acc : option (list (option error) * bool)) (i : Z)
  : option (list (option error) * bool) :=
  '(multiErr, anyErr) ← acc;
  e ← merr !! Z.to_nat i;
  if bool_decide (e ≠ None)
     && (negb ignoreFieldMismatch || negb (errFieldMismatch e))
  then Some (<[Z.to_nat i := e]> multiErr, true)
  else Some (multiErr, anyErr).

(** One round of [for i, idx := range dixs[lo:hi]] in a goroutine of
    [GetMulti]; the bookkeeping of [exists] has no reader and is left
    out.  [None] is the panic of [merr[i]]; the indices [idx] come from
    [dixs], which holds none. *)
Definition GetMulti_range_step (ignoreFieldMismatch : bool)
  (merr : list (option error))
  (acc : option (list (option error))) (p : nat * Z)
  : option (list (option error)) :=
  multiErr ← acc;
  e ← merr !! p.1;
  if bool_decide (e = None) || (ignoreFieldMismatch && errFieldMismatch e)
  then Some multiErr
  else Some (<[Z.to_nat p.2 := e]> multiErr).

(** Body of the goroutine of [GetMulti] started with [i]; [None] is a
    panic. *)
Definition GetMulti_task `{Host} (ignoreFieldMismatch : bool)
  (dskeys : list Key) (dsdst : list Entity) (dixs : list Z)
  (acc : option Shared) (i : Z) : option Shared :=
  s ← acc;
  let '(lo, hi) := chunk (len dskeys) getMultiLimit i in
  let '(_, gmerr) := ds_GetMulti (slice dskeys lo hi) (slice dsdst lo hi) in
  let log := calls s ++ [CallGetMulti (slice dskeys lo hi) (slice dsdst lo hi)] in
  match gmerr with
  | None => Some (mkShared (multiErr s) (anyFlag s) log)
  | Some (MultiError merr) =>
      m ← foldl (GetMulti_range_step ignoreFieldMismatch merr)
            (Some (multiErr s)) (imap pair (slice dixs lo hi));
      Some (mkShared m true log)
  | Some e => Some (mkShared (fill (multiErr s) lo hi (Some e)) true log)
  end.

(** The outcome array and the flag of the in-transaction branch of
    [GetMulti] after its loop over an itemized error [merr]. *)
Definition GetMulti_tx_outcomes (ignoreFieldMismatch : bool)
  (merr : list (option error)) (n : Z)
  : option (list (option error) * bool) :=
  foldl (GetMulti_tx_step ignoreFieldMismatch merr)
    (Some (make None n, false)) (seqZ 0 n).

(** The in-transaction branch of [GetMulti] on a non-nil error of the
    service call: the outcome array and the flag before the collapse. *)
Definition GetMulti_tx_collect (ignoreFieldMismatch : bool) (err : error)
  (n : Z) : option (list (option error) * bool) :=
  match err with
  | MultiError merr => GetMulti_tx_outcomes ignoreFieldMismatch merr n
  | _ => Some (fill (make None n) 0 n (Some err), true)
  end.

(** The fan-out of [GetMulti] outside a transaction up to [wg.Wait()].
    [dskeys], [dsdst] and [dixs] are declared and never appended to, so
    they are the nil slices here. *)
Definition GetMulti_dispatch `{Host} (sched : Schedule)
  (ignoreFieldMismatch : bool) (keys : list Key) : option Shared :=
  let dskeys : list Key := [] in
  let dsdst : list Entity := [] in
  let dixs : list Z := [] in
  foldl (GetMulti_task ignoreFieldMismatch dskeys dsdst dixs)
    (Some (mkShared (make None (len keys)) false []))
    (sched (goroutines (len dskeys) getMultiLimit)).

(** [GetMulti]: the error, the destination slice after the call, and the
    service calls; the outer [None] is a panic.  [IgnoreFieldMismatch] is
    the package variable, read at the call. *)
Definition GetMulti `{Host} (sched : Schedule) (g : Gosto)
  (IgnoreFieldMismatch : bool) (dst : Src Entity)
  : option (option error * list Entity * list (Call Entity)) :=
  match extractKeys dst false with
  | inr err => Some (Some err, items_of dst, [])
  | inl keys =>
      let v := items_of dst in
      if inTransaction g then
        let '(v', err) := ds_GetMulti keys v in
        let log := [CallGetMulti keys v] in
        match err with
        | None => Some (None, v', log)
        | Some e =>
            match GetMulti_tx_collect IgnoreFieldMismatch e (len keys) with
            | None => None
            | Some (m, true) => Some (realError m, v', log)
            | Some (_, false) => Some (None, v', log)
            end
        end
      else
        s ← GetMulti_dispatch sched IgnoreFieldMismatch keys;
        if anyFlag s then Some (realError (multiErr s), v, calls s)
        else Some (None, v, calls s)
  end.

(** [Get]: the error and the destination after the call. *)
Definition Get `{Host} (sched : Schedule) (g : Gosto)
  (IgnoreFieldMismatch : bool) (dst : Entity)
  : option (option error * Entity * list (Call Entity)) :=
  if negb (isPtr dst) then
    Some (Some (errorString ("Gosto: expected pointer to a struct, got "
                             +:+ fmt_sharp_v dst)), dst, [])
  else
    match GetMulti sched g IgnoreFieldMismatch (SliceOf [dst]) with
    | None => None
    | Some (Some (MultiError me), _, log) => e ← me !! 0%nat; Some (e, dst, log)
    | Some (Some e, _, log) => Some (Some e, dst, log)
    | Some (None, dsts, log) => d ← dsts !! 0%nat; Some (None, d, log)
    end.

(** Body of the goroutine of [DeleteMulti] started with [i]. *)
Definition DeleteMulti_task `{Host} (keys : list Key)
  (s : Shared) (i : Z) : Shared :=
  let '(lo, hi) := chunk (len keys) deleteMultiLimit i in
  let dmerr := ds_DeleteMulti (slice keys lo hi) in
  let log := calls s ++ [CallDeleteMulti (slice keys lo hi)] in
  match dmerr with
  | None => mkShared (multiErr s) (anyFlag s) log
  | Some (MultiError merr) => mkShared (copy (multiErr s) lo hi merr) true log
  | Some e => mkShared (fill (multiErr s) lo hi (Some e)) true log
  end.

(** The fan-out of [DeleteMulti] up to [wg.Wait()]. *)
Definition DeleteMulti_dispatch `{Host} (sched : Schedule) (keys : list Key)
  : Shared :=
  foldl (DeleteMulti_task keys) (mkShared (make None (len keys)) false [])
    (sched (goroutines (len keys) deleteMultiLimit)).

Definition DeleteMulti `{Host} (sched : Schedule) (keys : list Key)
  : option error * list (Call Entity) :=
  if len keys =? 0 then (None, [])
  else
    let s := DeleteMulti_dispatch sched keys in
    if anyFlag s then (realError (multiErr s), calls s)
    else (None, calls s).

(** [Delete]; the outer [None] is the panic of [me[0]]. *)
Definition Delete `{Host} (sched : Schedule) (key : Key)
  : option (option error * list (Call Entity)) :=
  let '(err, log) := DeleteMulti sched [key] in
  match err with
  | Some (MultiError me) => e ← me !! 0%nat; Some (e, log)
  | _ => Some (err, log)
  end.

(** ** Queries *)

(** The loop [for i, k := range keys] of [GetAll] over the elements of
    [v] from [vLenBefore] on: the slice as stamped so far, and the error
    of [setStructKey] that ended the loop early; the outer [None] is the
    panic of [v.Index]. *)
Fixpoint GetAll_stamp `{Host} (v : list Entity) (at_ : nat) (keys : list Key)
  : option (list Entity * option error) :=
  match keys with
  | [] => Some (v, None)
  | k :: keys' =>
      e ← v !! at_;
      match setStructKey e (Some k) with
      | (e', Some err) => Some (<[at_ := e']> v, Some err)
      | (e', None) => GetAll_stamp (<[at_ := e']> v) (S at_) keys'
      end
  end.

(** [GetAll]: keys, error, and the destination after the call. *)
Definition GetAll `{Host} (IgnoreFieldMismatch : bool) (q : Query)
  (dst : AllDst Entity)
  : option (list Key * option error * AllDst Entity) :=
  let expected k :=
    errorString ("Gosto: Expected dst to be a pointer to a slice or nil, "
                 +:+ "got instead: " +:+ k) in
  match dst with
  | DstNotPtr k => Some ([], Some (expected k), dst)
  | DstPtrNotSlice k => Some ([], Some (expected k), dst)
  | DstNil | DstPtrSlice _ _ =>
      let vLenBefore :=
        match dst with DstPtrSlice _ items => length items | _ => O end in
      let '(keys, loaded, err0) := ds_GetAll q dst in
      let dst1 :=
        match dst with DstPtrSlice elem _ => DstPtrSlice elem loaded | _ => dst end in
      if bool_decide (err0 ≠ None) && negb (errFieldMismatch err0)
      then Some (keys, err0, dst1)
      else
        let err :=
          if errFieldMismatch err0 && IgnoreFieldMismatch then None else err0 in
        match dst with
        | DstPtrSlice elem _ =>
            if len keys =? 0 then Some (keys, err, dst1)
            else
              match elem with
              | ElemOther _ k =>
                  Some (keys,
                        Some (errorString
                                ("Gosto: Expected struct, got instead: " +:+ k)),
                        dst1)
              | ElemStruct | ElemPtrStruct =>
                  let v := loaded ++ replicate (length keys) zeroValue in
                  '(v', serr) ← GetAll_stamp v vLenBefore keys;
                  match serr with
                  | Some e => Some ([], Some e, DstPtrSlice elem v')
                  | None => Some (keys, err, DstPtrSlice elem v')
                  end
              end
        | _ => Some (keys, err, dst1)
        end
  end.

(** The [Iterator] struct: the client is behind [Host]. *)
Record Iterator `{Host} : Type := { i : DsIterator }.

(** [Iterator.Next]: key, error, the destination and the iterator after
    the call. *)
Definition Next `{Host} (IgnoreFieldMismatch : bool) (t : Iterator)
  (dst : option Entity)
  : option Key * option error * option Entity * Iterator :=
  let '(it', k, err) := ds_Next (i t) in
  let dst1 := ds_load (i t) <$> dst in
  if bool_decide (err ≠ None)
     && (negb IgnoreFieldMismatch || negb (errFieldMismatch err))
  then (k, err, dst1, {| i := it' |})
  else
    match dst1 with
    | Some d => (k, None, Some (setStructKey d k).1, {| i := it' |})
    | None => (k, None, None, {| i := it' |})
    end.

(** ** A host to run the model on

    Entities are users addressed by a numeric id or by a string name; the
    store answers per key by the numeric id: 404 is absent, 422 no longer
    fits the struct, 503 fails the whole call. *)
Module Sample.

Inductive User : Type :=
  | UserInt (id : Z)
  | UserStr (name : string)
  | NotStruct.

Definition key_of (u : User) : (Key * bool) + error :=
  match u with
  | UserInt id => inl (mkKey "User" id EmptyString None, false)
  | UserStr name => inl (mkKey "User" 0 name None, true)
  | NotStruct => inr (errorString "Gosto: Expected struct, got instead: int")
  end.

Definition stamp (u : User) (k : option Key) : User * option error :=
  match u, k with
  | UserInt _, Some k => (UserInt (ID k), None)
  | UserStr _, Some k => (UserStr (Name k), None)
  | _, _ => (u, Some (errorString "Gosto: Expected struct, got instead: int"))
  end.

Definition show (u : User) : string :=
  match u with
  | UserInt id => "{" +:+ decimal (Z.to_nat id) +:+ "}"
  | UserStr name => "{" +:+ name +:+ "}"
  | NotStruct => "0"
  end.

Definition mismatch : error :=
  ErrFieldMismatch "User" "Age" "no such struct field".

Definition outcome (k : Key) : option error :=
  if ID k =? 404 then Some ErrNoSuchEntity
  else if ID k =? 422 then Some mismatch
  else None.

Definition respond (keys : list Key) : option error :=
  if existsb (fun k => ID k =? 503) keys
  then Some (errorString "datastore: unavailable")
  else if forallb (fun k => bool_decide (outcome k = None)) keys then None
  else Some (MultiError (outcome <$> keys)).

Definition Done : error := errorString "no more items in iterator".

Definition host : Host := {|
  Entity := User;
  fmt_q := fun s => dquote +:+ s +:+ dquote;
  fmt_v := show;
  fmt_sharp_v := show;
  isPtr := fun u => match u with NotStruct => false | _ => true end;
  getStructKey := key_of;
  setStructKey := stamp;
  zeroValue := UserInt 0;
  ds_PutMulti := fun keys _ => (keys, respond keys);
  ds_GetMulti := fun keys dst => (dst, respond keys);
  ds_DeleteMulti := respond;
  Query := list Key * option error;
  ds_GetAll := fun q dst =>
    (q.1,
     match dst with
     | DstPtrSlice _ items => items ++ ((fun k => UserInt (ID k)) <$> q.1)
     | _ => []
     end,
     q.2);
  DsIterator := list (Key * option error);
  ds_Next := fun it =>
    match it with
    | [] => ([], None, Some Done)
    | (k, e) :: rest => (rest, Some k, e)
    end;
  ds_load := fun it dst =>
    match it, dst with
    | (k, None) :: _, UserInt _ => UserInt (ID k)
    | (k, None) :: _, UserStr _ => UserStr (Name k)
    | _, _ => dst
    end
|}.

Definition users (n : nat) : list User := (fun j => UserInt (Z.of_nat j + 1)) <$> seq 0 n.

End Sample.

(** ** Specification vocabulary *)

(** Slot [e] agrees with the first slot: both nil, or both non-nil with
    the same text. *)
Definition agrees `{Host} (init e : option error) : Prop :=
  match init, e with
  | None, None => True
  | Some a, Some b => Error a = Error b
  | _, _ => False
  end.

(** Every slot agrees with the first one. *)
Definition uniform `{Host} (outcomes : list (option error)) : Prop :=
  match outcomes with
  | [] => True
  | init :: rest => Forall (agrees init) rest
  end.

(** The kinds the datastore always reports per item. *)
Definition itemized_kind (e : option error) : Prop :=
  (exists st fn r, e = Some (ErrFieldMismatch st fn r))
  \/ e = Some ErrInvalidEntityType \/ e = Some ErrNoSuchEntity.

(** The effect of one goroutine of [PutMulti] or [DeleteMulti] on the
    outcome array, given the error [resp] of its service call. *)
Definition write (resp : option error) (lo hi : Z) (a : list (option error))
  : list (option error) :=
  match resp with
  | None => a
  | Some (MultiError merr) => copy a lo hi merr
  | Some e => fill a lo hi (Some e)
  end.

(** The slot at index [p] of a chunk starting at [lo] after its goroutine
    ran, given the slot before. *)
Definition slot_after (resp : option error) (lo : Z) (p : nat)
  (old : option (option error)) : option (option error) :=
  match resp with
  | None => old
  | Some (MultiError merr) =>
      match merr !! (p - Z.to_nat lo)%nat with
      | Some x => Some x
      | None => old
      end
  | Some e => Some (Some e)
  end.

(** The outcome array after goroutines with service errors [resp] and
    ranges [rng] ran in the given order. *)
Definition run_writes (resp : Z -> option error) (rng : Z -> Z * Z)
  (order : list Z) (a : list (option error)) : list (option error) :=
  foldl (fun acc j => write (resp j) (rng j).1 (rng j).2 acc) a order.

(** The error of the service call made by goroutine [i] of [PutMulti]. *)
Definition PutMulti_resp `{Host} (keys : list Key) (v : list Entity) (i : Z)
  : option error :=
  let '(lo, hi) := chunk (len keys) putMultiLimit i in
  (ds_PutMulti (slice keys lo hi) (slice v lo hi)).2.

(** The error of the service call made by goroutine [i] of [DeleteMulti]. *)
Definition DeleteMulti_resp `{Host} (keys : list Key) (i : Z) : option error :=
  let '(lo, hi) := chunk (len keys) deleteMultiLimit i in
  ds_DeleteMulti (slice keys lo hi).

(** What a failed chunk call leaves in the outcome array [a]: a single
    error in every slot of [[lo, hi)], an itemized error element by
    element from [lo] on. *)
Definition chunk_written (resp : option error) (lo hi : Z)
  (a : list (option error)) : Prop :=
  (forall e, resp = Some e -> (forall merr, e <> MultiError merr) ->
     forall p : nat, lo <= Z.of_nat p < hi -> a !! p = Some (Some e))
  /\ (forall merr, resp = Some (MultiError merr) ->
        forall (j : nat) x, merr !! j = Some x -> lo + Z.of_nat j < hi ->
          a !! (Z.to_nat lo + j)%nat = Some x).

(** The slot the in-transaction loop of [GetMulti] leaves for the
    itemized element [e]: nil for nil and for a tolerated field mismatch,
    [e] otherwise. *)
Definition tx_slot (ignoreFieldMismatch : bool) (e : option error)
  : option error :=
  if bool_decide (e ≠ None)
     && (negb ignoreFieldMismatch || negb (errFieldMismatch e))
  then e else None.

(** The service call made by goroutine [i] of [PutMulti]. *)
Definition PutMulti_call `{Host} (keys : list Key) (v : list Entity) (i : Z)
  : Call Entity :=
  let '(lo, hi) := chunk (len keys) putMultiLimit i in
  CallPutMulti (slice keys lo hi) (slice v lo hi).

(** The service call made by goroutine [i] of [DeleteMulti]. *)
Definition DeleteMulti_call `{Host} (keys : list Key) (i : Z) : Call Entity :=
  let '(lo, hi) := chunk (len keys) deleteMultiLimit i in
  CallDeleteMulti (slice keys lo hi).

(** Key derivation succeeds on [x]. *)
Definition resolves `{Host} (x : Entity) : Prop :=
  exists k b, getStructKey x = inl (k, b).

(** [x] has an incomplete derived key. *)
Definition incomplete_key `{Host} (x : Entity) : Prop :=
  exists k b, getStructKey x = inl (k, b) /\ Incomplete k = true.

(** [x] set a string identity explicitly and left it empty. *)
Definition empty_string_id `{Host} (x : Entity) : Prop :=
  exists k, getStructKey x = inl (k, true) /\ Incomplete k = true.

(** [k] is the key derived from [x]. *)
Definition derived `{Host} (x : Entity) (k : Key) : Prop :=
  exists b, getStructKey x = inl (k, b).

Definition MissingIdentity `{Host} (x : Entity) : error :=
  errorString ("Gosto: cannot find a key for struct - " +:+ fmt_v x).

Definition EmptyStringIdentity : error :=
  errorString "Gosto: empty string id on put".

(** [x] passes the checks of [extractKeys] for the given intent. *)
Definition acceptable `{Host} (putRequest : bool) (x : Entity) : Prop :=
  exists k b, getStructKey x = inl (k, b)
    /\ if putRequest then Incomplete k && b = false else Incomplete k = false.

(** The keys a logged service call was made with. *)
Definition keys_of_call {E} (c : Call E) : list Key :=
  match c with
  | CallPutMulti keys _ | CallGetMulti keys _ | CallDeleteMulti keys => keys
  end.

(** An error value that is not itself an itemized array. *)
Definition scalar (e : error) : Prop := forall merr, e <> MultiError merr.

(** The error a dispatcher returns after [wg.Wait()], from the errors
    [resp] of the chunk calls: the collapse of the outcome array when some
    call failed, nil otherwise. *)
Definition dispatch_error `{Host} (resp : Z -> option error) (n L : Z)
  (order : list Z) : option error :=
  if existsb (fun i => bool_decide (resp i <> None)) order
  then realError (run_writes resp (chunk n L) order (make None n))
  else None.

(** ** The collapser: rules of [realError] *)

Lemma differs_agrees `{Host} init e : differs init e = false <-> agrees init e.
Proof.
  destruct init as [a|], e as [b|]; simpl; try (split; [discriminate | tauto]);
    try tauto.
  rewrite negb_false_iff. apply String.eqb_eq.
Qed.

Lemma realError_loop_uniform `{Host} init rest :
  realError_loop init rest = false <-> Forall (agrees init) rest.
Proof.
  induction rest as [|e rest IH]; simpl.
  - split; [constructor | reflexivity].
  - rewrite Forall_cons, <- IH, <- differs_agrees.
    destruct (differs init e); intuition congruence.
Qed.

Lemma itemized_kind_bool (e : option error) :
  itemized_kind e <->
  errFieldMismatch e || (isErrInvalidEntityType e || isErrNoSuchEntity e) = true.
Proof.
  unfold itemized_kind. split.
  - intros [(st & fn & r & ->) | [-> | ->]]; reflexivity.
  - destruct e as [[]|]; simpl; try discriminate; eauto 6.
Qed.

(** C1. The rules of the collapser, in order: an empty array gives nil; an
    all-nil array gives nil; a uniform array whose first error is a field
    mismatch, the invalid-entity-type sentinel or the not-found sentinel is
    returned whole; a uniform array of any other error gives that first
    error; a mixed array is returned whole. *)
Theorem realError_rules `{Host} (outcomes : list (option error)) :
  (outcomes = [] -> realError outcomes = None)
  /\ (Forall (eq None) outcomes -> realError outcomes = None)
  /\ (forall e, head outcomes = Some (Some e) -> uniform outcomes ->
        itemized_kind (Some e) ->
        realError outcomes = Some (MultiError outcomes))
  /\ (forall e, head outcomes = Some (Some e) -> uniform outcomes ->
        ~ itemized_kind (Some e) ->
        realError outcomes = Some e)
  /\ (outcomes <> [] -> ~ uniform outcomes ->
        realError outcomes = Some (MultiError outcomes)).
Proof.
  repeat split.
  - intros ->. reflexivity.
  - intros Hnil. destruct outcomes as [|init rest]; [reflexivity|].
    apply Forall_cons in Hnil as [<- Hrest]. simpl.
    assert (Hloop : realError_loop None rest = false).
    { apply realError_loop_uniform. eapply Forall_impl; [exact Hrest|].
      intros ? <-. exact I. }
    rewrite Hloop. reflexivity.
  - intros e Hhd Huni Hkind. destruct outcomes as [|init rest]; [discriminate|].
    simpl in Hhd. injection Hhd as ->. simpl in Huni.
    apply realError_loop_uniform in Huni. apply itemized_kind_bool in Hkind.
    unfold realError. rewrite Huni.
    destruct (errFieldMismatch (Some e)); [reflexivity|].
    rewrite orb_false_l in Hkind. rewrite Hkind. reflexivity.
  - intros e Hhd Huni Hkind. destruct outcomes as [|init rest]; [discriminate|].
    simpl in Hhd. injection Hhd as ->. simpl in Huni.
    apply realError_loop_uniform in Huni. rewrite itemized_kind_bool in Hkind.
    apply not_true_is_false, orb_false_iff in Hkind as [Hfm Hsent].
    unfold realError. rewrite Huni, Hfm, Hsent. reflexivity.
  - intros Hne Hmixed. destruct outcomes as [|init rest]; [congruence|].
    simpl in Hmixed. rewrite <- realError_loop_uniform in Hmixed.
    apply not_false_is_true in Hmixed. unfold realError. rewrite Hmixed.
    reflexivity.
Qed.

(** The collapse laws of the package tests, on the sample host. *)
Example realError_malformed_key :
  realError (H := Sample.host) [Some ErrInvalidKey; Some ErrInvalidKey; Some ErrInvalidKey]
  = Some ErrInvalidKey.
Proof. reflexivity. Qed.

Example realError_not_found_itemized :
  let result := realError (H := Sample.host) [Some ErrNoSuchEntity; Some ErrNoSuchEntity] in
  result = Some (MultiError [Some ErrNoSuchEntity; Some ErrNoSuchEntity])
  /\ NotFound result 0 = Some true.
Proof. split; reflexivity. Qed.

Example realError_mixed :
  let err1 := errorString "first" in
  let err2 := errorString "second" in
  realError (H := Sample.host) [None; Some err1; Some err2]
  = Some (MultiError [None; Some err1; Some err2]).
Proof. reflexivity. Qed.

Lemma realError_rules_witness :
  realError (H := Sample.host) [Some ErrInvalidKey; Some ErrInvalidKey]
  = Some ErrInvalidKey.
Proof.
  apply (proj1 (proj2 (proj2 (proj2
           (realError_rules (H := Sample.host) [Some ErrInvalidKey; Some ErrInvalidKey]))))).
  - reflexivity.
  - repeat constructor.
  - intros [(st & fn & r & Heq) | [Heq | Heq]]; discriminate Heq.
Defined.

(** ** The inspection helper *)

Lemma isErrNoSuchEntity_true (e : option error) :
  isErrNoSuchEntity e = true <-> e = Some ErrNoSuchEntity.
Proof.
  destruct e as [[]|]; simpl; split; intros Heq; try discriminate Heq;
    try reflexivity; congruence.
Qed.

(** C10. [NotFound] returns for every error value and every index from 0
    on; the answer is [false] when the error is not an itemized array and
    when the index is at or past its end, and it is [true] exactly for an
    itemized array whose slot [idx] is the not-found sentinel. *)
Theorem NotFound_total (err : option error) (idx : Z) :
  0 <= idx ->
  exists b, NotFound err idx = Some b
    /\ ((forall merr, err <> Some (MultiError merr)) -> b = false)
    /\ (forall merr, err = Some (MultiError merr) -> len merr <= idx -> b = false)
    /\ (b = true <->
        exists merr, err = Some (MultiError merr) /\ idx < len merr
                     /\ merr !! Z.to_nat idx = Some (Some ErrNoSuchEntity)).
Proof.
  intros Hidx. unfold NotFound.
  destruct err as [e|]; [destruct e as [| | | | |merr]|];
    try (exists false; repeat split;
         [ intros Heq; discriminate Heq
         | intros (merr' & Heq & _); discriminate Heq ]).
  destruct (Z.ltb_spec idx (len merr)) as [Hlt|Hge].
  - destruct (Z.ltb_spec idx 0) as [Hneg|_]; [lia|].
    assert (Hin : (Z.to_nat idx < length merr)%nat) by (unfold len in Hlt; lia).
    apply lookup_lt_is_Some in Hin as [slot Hslot]. rewrite Hslot. simpl.
    exists (isErrNoSuchEntity slot). repeat split.
    + intros Hno. destruct (Hno merr eq_refl).
    + intros merr' [= <-] Hlen. lia.
    + intros Hb. apply isErrNoSuchEntity_true in Hb as ->. eauto.
    + intros (merr' & [= <-] & _ & Hs). rewrite Hslot in Hs.
      injection Hs as ->. reflexivity.
  - exists false. repeat split.
    + intros Heq. discriminate Heq.
    + intros (merr' & [= <-] & Hlt & _). lia.
Qed.

Lemma NotFound_total_witness :
  exists b, NotFound (Some (MultiError [None; Some ErrNoSuchEntity])) 1 = Some b
    /\ b = true.
Proof.
  destruct (NotFound_total (Some (MultiError [None; Some ErrNoSuchEntity])) 1)
    as (b & Hrun & _ & _ & Hiff); [lia|].
  exists b. split; [exact Hrun|].
  apply Hiff. exists [None; Some ErrNoSuchEntity].
  repeat split; reflexivity.
Defined.

(** ** The chunk plan *)

Lemma goroutines_bounds (n L : Z) :
  1 <= n -> 1 <= L ->
  0 < goroutines n L
  /\ (goroutines n L - 1) * L < n <= goroutines n L * L.
Proof.
  intros Hn HL. unfold goroutines.
  rewrite Z.quot_div_nonneg by lia.
  pose proof (Z.mul_div_le (n - 1) L ltac:(lia)) as Hlo.
  pose proof (Z.mul_succ_div_gt (n - 1) L ltac:(lia)) as Hhi.
  pose proof (Z.div_pos (n - 1) L ltac:(lia) ltac:(lia)) as Hq.
  split; [lia|]. split; nia.
Qed.

(** For a non-empty batch the number of goroutines is [ceil (n / L)]. *)
Lemma goroutines_ceil (n L : Z) :
  1 <= n -> 1 <= L -> goroutines n L = (n + L - 1) `div` L.
Proof.
  intros Hn HL. unfold goroutines. rewrite Z.quot_div_nonneg by lia.
  replace (n + L - 1) with ((n - 1) + 1 * L) by lia.
  rewrite Z.div_add by lia. reflexivity.
Qed.

Lemma plan_length (n L : Z) : length (plan n L) = Z.to_nat (goroutines n L).
Proof. unfold plan. rewrite length_fmap. apply length_seqZ. Qed.

Lemma plan_lookup (n L i : Z) :
  0 <= i < goroutines n L ->
  plan n L !! Z.to_nat i = Some (chunk n L i).
Proof.
  intros Hi. unfold plan. rewrite list_lookup_fmap.
  rewrite lookup_seqZ_lt by lia. simpl. f_equal. f_equal. lia.
Qed.

Lemma chunk_bounds (n L i : Z) :
  1 <= n -> 1 <= L -> 0 <= i < goroutines n L ->
  let '(lo, hi) := chunk n L i in
  lo = i * L /\ lo < hi <= n /\ hi - lo <= L
  /\ (i + 1 < goroutines n L -> hi = (i + 1) * L)
  /\ (i + 1 = goroutines n L -> hi = n).
Proof.
  intros Hn HL Hi. destruct (goroutines_bounds n L Hn HL) as (Hg & Hglo & Hghi).
  unfold chunk. destruct (Z.gtb_spec ((i + 1) * L) n) as [Hcut|Hfit].
  - repeat split; try nia.
  - repeat split; try nia.
Qed.

(** X4.  The plan of a non-empty batch: [ceil (n / L)] ranges, the first one
    starting at 0, each one starting where the one before ends, the last
    one ending at [n], none empty and none longer than [L]; so every
    index of [[0, n)] lies in exactly one range. *)
Lemma plan_partition (n L : Z) :
  1 <= n -> 1 <= L ->
  len (plan n L) = (n + L - 1) `div` L
  /\ (forall i lo hi, plan n L !! i = Some (lo, hi) ->
        lo = Z.of_nat i * L /\ lo < hi <= n /\ hi - lo <= L
        /\ (plan n L !! S i = None -> hi = n)
        /\ (forall lo' hi', plan n L !! S i = Some (lo', hi') -> lo' = hi))
  /\ (forall j, 0 <= j < n ->
        exists i lo hi, plan n L !! i = Some (lo, hi) /\ lo <= j < hi
          /\ forall i' lo' hi', plan n L !! i' = Some (lo', hi') ->
               lo' <= j < hi' -> i' = i).
Proof.
  intros Hn HL. destruct (goroutines_bounds n L Hn HL) as (Hg & Hglo & Hghi).
  assert (Hlook : forall i lo hi, plan n L !! i = Some (lo, hi) ->
            0 <= Z.of_nat i < goroutines n L /\ chunk n L (Z.of_nat i) = (lo, hi)).
  { intros i lo hi Hi.
    assert (Hlt : (i < length (plan n L))%nat) by (eapply lookup_lt_Some; eauto).
    rewrite plan_length in Hlt. split; [lia|].
    rewrite <- (Nat2Z.id i), plan_lookup in Hi by lia. congruence. }
  split; [|split].
  - unfold len. rewrite plan_length, <- goroutines_ceil by lia. lia.
  - intros i lo hi Hi. apply Hlook in Hi as [Hrange Hchunk].
    pose proof (chunk_bounds n L (Z.of_nat i) Hn HL Hrange) as Hb.
    rewrite Hchunk in Hb. destruct Hb as (Hlo & Hhi & Hlen & Hmid & Hlast).
    repeat split; try lia.
    + intros Hnone. apply lookup_ge_None in Hnone. rewrite plan_length in Hnone.
      apply Hlast. lia.
    + intros lo' hi' Hnext. apply Hlook in Hnext as [Hrange' Hchunk'].
      pose proof (chunk_bounds n L _ Hn HL Hrange') as Hb'.
      rewrite Hchunk' in Hb'. destruct Hb' as (Hlo' & _). lia.
  - intros j Hj.
    assert (Hq : 0 <= j `div` L < goroutines n L).
    { pose proof (Z.mul_div_le j L ltac:(lia)).
      pose proof (Z.div_pos j L ltac:(lia) ltac:(lia)). split; [lia|nia]. }
    pose proof (chunk_bounds n L _ Hn HL Hq) as Hb.
    destruct (chunk n L (j `div` L)) as [lo hi] eqn:Hchunk.
    destruct Hb as (Hlo & Hhi & Hlen & Hmid & Hlast).
    pose proof (Z.mul_div_le j L ltac:(lia)) as Hdl.
    pose proof (Z.mul_succ_div_gt j L ltac:(lia)) as Hdu.
    exists (Z.to_nat (j `div` L)), lo, hi. split; [|split].
    + rewrite plan_lookup by lia. congruence.
    + destruct (Z.eq_dec (j `div` L + 1) (goroutines n L)) as [Heq|Hne].
      * rewrite (Hlast Heq). lia.
      * rewrite Hmid by lia. lia.
    + intros i' lo' hi' Hi' Hin. apply Hlook in Hi' as [Hrange' Hchunk'].
      pose proof (chunk_bounds n L _ Hn HL Hrange') as Hb'.
      rewrite Hchunk' in Hb'. destruct Hb' as (Hlo' & Hhi' & Hlen' & _).
      assert (Z.of_nat i' = j `div` L); [|lia].
      apply (Z.div_unique_pos j L (Z.of_nat i') (j - lo')); lia.
Qed.

(** ** Writes into the outcome array *)

Lemma length_fill {A} (a : list A) (lo hi : Z) (x : A) :
  length (fill a lo hi x) = length a.
Proof.
  unfold fill. generalize (seqZ lo (hi - lo)). intros l. revert a.
  induction l as [|j l IH]; intros a; simpl; [reflexivity|].
  rewrite IH. apply length_insert.
Qed.

Lemma length_copy {A} (dst : list A) (lo hi : Z) (src : list A) :
  length (copy dst lo hi src) = length dst.
Proof. apply length_inserts. Qed.

Lemma foldl_insert_lookup {A} (x : A) (l : list Z) (a : list A) (p : nat) :
  Forall (fun j => 0 <= j) l ->
  foldl (fun acc j => <[Z.to_nat j := x]> acc) a l !! p
  = if decide (Z.of_nat p ∈ l /\ (p < length a)%nat) then Some x else a !! p.
Proof.
  intros Hpos. revert a. induction Hpos as [|j l Hj Hpos IH]; intros a; cbn [foldl].
  - case_decide as Hd; [|reflexivity].
    destruct Hd as [Hin _]. apply elem_of_nil in Hin. destruct Hin.
  - rewrite IH, length_insert.
    destruct (decide (Z.to_nat j = p)) as [<-|Hne].
    + destruct (decide (_ ∈ l /\ _)) as [[_ Hlt]|Hout].
      * rewrite decide_True; [reflexivity|]. split; [|exact Hlt].
        rewrite Z2Nat.id by lia. apply list_elem_of_here.
      * destruct (decide ((Z.to_nat j < length a)%nat)) as [Hlt|Hge].
        -- rewrite list_lookup_insert_eq by exact Hlt.
           rewrite decide_True; [reflexivity|]. split; [|exact Hlt].
           rewrite Z2Nat.id by lia. apply list_elem_of_here.
        -- rewrite list_insert_ge by lia.
           rewrite decide_False by (intros [_ Hlt]; lia). reflexivity.
    + rewrite list_lookup_insert_ne by exact Hne.
      destruct (decide (_ ∈ l /\ _)) as [[Hin Hlt]|Hout].
      * rewrite decide_True; [reflexivity|]. split; [|exact Hlt].
        apply list_elem_of_further, Hin.
      * rewrite decide_False; [reflexivity|]. intros [Hin Hlt]. apply Hout.
        split; [|exact Hlt]. apply elem_of_cons in Hin as [Heq|Hin]; [lia|exact Hin].
Qed.

Lemma fill_lookup {A} (a : list A) (lo hi : Z) (x : A) (p : nat) :
  0 <= lo ->
  fill a lo hi x !! p
  = if decide (lo <= Z.of_nat p < hi /\ (p < length a)%nat) then Some x
    else a !! p.
Proof.
  intros Hlo. unfold fill. rewrite foldl_insert_lookup.
  - destruct (decide (_ ∈ _ /\ _)) as [[Hin Hlt]|Hout].
    + apply elem_of_seqZ in Hin. rewrite decide_True; [reflexivity|]. lia.
    + rewrite decide_False; [reflexivity|]. intros [Hin Hlt]. apply Hout.
      split; [|exact Hlt]. apply elem_of_seqZ. lia.
  - apply Forall_forall. intros j Hj. apply elem_of_seqZ in Hj. lia.
Qed.

Lemma copy_lookup {A} (dst : list A) (lo hi : Z) (src : list A) (p : nat) :
  0 <= lo ->
  copy dst lo hi src !! p
  = if decide (lo <= Z.of_nat p < hi /\ (p < length dst)%nat) then
      match src !! (p - Z.to_nat lo)%nat with
      | Some x => Some x
      | None => dst !! p
      end
    else dst !! p.
Proof.
  intros Hlo. unfold copy.
  set (k := take (Z.to_nat (hi - lo)) src).
  assert (Hk : length k = (Z.to_nat (hi - lo) `min` length src)%nat)
    by apply length_take.
  destruct (decide (lo <= Z.of_nat p < hi /\ (p < length dst)%nat)) as [[Hin Hlt]|Hout].
  - destruct (decide (p - Z.to_nat lo < length src)%nat) as [Hs|Hs].
    + rewrite list_lookup_inserts by lia. unfold k.
      rewrite lookup_take_lt by lia.
      apply lookup_lt_is_Some in Hs as [x Hx]. rewrite Hx. reflexivity.
    + rewrite list_lookup_inserts_ge by lia.
      rewrite (lookup_ge_None_2 src) by lia. reflexivity.
  - destruct (decide (Z.of_nat p < lo)) as [Hbelow|Habove].
    + apply list_lookup_inserts_lt. lia.
    + destruct (decide (p < length dst)%nat) as [Hlt|Hge].
      * apply list_lookup_inserts_ge. lia.
      * rewrite !lookup_ge_None_2; [reflexivity|lia|rewrite length_inserts; lia].
Qed.

Lemma length_write resp lo hi a : length (write resp lo hi a) = length a.
Proof.
  destruct resp as [[]|]; simpl; auto using length_fill, length_copy.
Qed.

Lemma write_lookup resp lo hi a (p : nat) :
  0 <= lo ->
  write resp lo hi a !! p
  = if decide (lo <= Z.of_nat p < hi /\ (p < length a)%nat)
    then slot_after resp lo p (a !! p) else a !! p.
Proof.
  intros Hlo.
  destruct resp as [[]|]; simpl;
    rewrite ?fill_lookup, ?copy_lookup by exact Hlo;
    try reflexivity.
  case_decide; reflexivity.
Qed.

Section Dispatch.

(** The error of the service call and the range of each goroutine. *)
Variable resp : Z -> option error.
Variable rng : Z -> Z * Z.

Let run := run_writes resp rng.

Lemma length_run order a : length (run order a) = length a.
Proof.
  revert a. induction order as [|j order IH]; intros a; [reflexivity|].
  unfold run, run_writes in *. simpl. rewrite IH. apply length_write.
Qed.

Lemma run_lookup_untouched order a (p : nat) :
  Forall (fun j => 0 <= (rng j).1) order ->
  Forall (fun j => ~ ((rng j).1 <= Z.of_nat p < (rng j).2)) order ->
  run order a !! p = a !! p.
Proof.
  intros Hpos Hout. revert a.
  induction order as [|j order IH]; intros a; [reflexivity|].
  apply Forall_cons in Hpos as [Hj Hpos]. apply Forall_cons in Hout as [Hp Hout].
  unfold run, run_writes in *. simpl. rewrite IH by assumption.
  rewrite write_lookup by exact Hj. apply decide_False. tauto.
Qed.

(** With goroutines on disjoint ranges, the slot at [p] is what the one
    goroutine owning [p] makes of the initial slot, whatever the order. *)
Lemma run_lookup_owner order a (i : Z) (p : nat) :
  NoDup order -> i ∈ order ->
  Forall (fun j => 0 <= (rng j).1) order ->
  (forall j, j ∈ order -> j <> i ->
     ~ ((rng j).1 <= Z.of_nat p < (rng j).2)) ->
  (rng i).1 <= Z.of_nat p < (rng i).2 -> (p < length a)%nat ->
  run order a !! p = slot_after (resp i) (rng i).1 p (a !! p).
Proof.
  intros Hnd Hin Hpos Hdisj Hp. revert a.
  induction order as [|j order IH]; intros a Hlen.
  { apply elem_of_nil in Hin. destruct Hin. }
  apply NoDup_cons in Hnd as [Hfresh Hnd].
  apply Forall_cons in Hpos as [Hj Hpos].
  unfold run, run_writes in *. simpl. destruct (decide (j = i)) as [->|Hne].
  - fold (run_writes resp rng order (write (resp i) (rng i).1 (rng i).2 a)).
    fold run.
    rewrite run_lookup_untouched.
    + rewrite write_lookup by exact Hj. apply decide_True. tauto.
    + exact Hpos.
    + apply Forall_forall. intros j Hjin. apply Hdisj.
      * apply list_elem_of_further, Hjin.
      * intros ->. contradiction.
  - apply elem_of_cons in Hin as [Heq|Hin]; [congruence|].
    rewrite IH; try assumption.
    + f_equal. rewrite write_lookup by exact Hj. apply decide_False.
      intros [Hr _]. eapply Hdisj; [apply list_elem_of_here|exact Hne|exact Hr].
    + intros j' Hj' Hne'. apply Hdisj; [apply list_elem_of_further, Hj'|exact Hne'].
    + rewrite length_write. exact Hlen.
Qed.

End Dispatch.

(** ** Schedules and ranges *)

Lemma valid_schedule_NoDup sched g : valid_schedule sched -> NoDup (sched g).
Proof. intros Hv. rewrite (Hv g). apply NoDup_seqZ. Qed.

Lemma valid_schedule_elem sched g i :
  valid_schedule sched -> i ∈ sched g <-> 0 <= i < g.
Proof. intros Hv. rewrite (Hv g), elem_of_seqZ. lia. Qed.

Lemma valid_schedule_one sched : valid_schedule sched -> sched 1 = [0].
Proof. intros Hv. apply Permutation_singleton_r. exact (Hv 1). Qed.

Lemma in_order_valid : valid_schedule in_order.
Proof. intros g. reflexivity. Qed.

Lemma chunk_fst n L i : (chunk n L i).1 = i * L.
Proof. reflexivity. Qed.

Lemma chunk_snd_le n L i : (chunk n L i).2 <= (i + 1) * L.
Proof. unfold chunk. simpl. destruct (Z.gtb_spec ((i + 1) * L) n); lia. Qed.

(** Two goroutines never share an index. *)
Lemma chunk_disjoint n L i j (p : Z) :
  1 <= L -> i <> j ->
  (chunk n L i).1 <= p < (chunk n L i).2 ->
  ~ ((chunk n L j).1 <= p < (chunk n L j).2).
Proof.
  intros HL Hne Hi Hj.
  pose proof (chunk_snd_le n L i). pose proof (chunk_snd_le n L j).
  rewrite chunk_fst in *. nia.
Qed.

Lemma chunk_snd_le_n n L i : (chunk n L i).2 <= n.
Proof. unfold chunk. simpl. destruct (Z.gtb_spec ((i + 1) * L) n); lia. Qed.

Lemma plan_lookup_inv n L (i : nat) lo hi :
  plan n L !! i = Some (lo, hi) ->
  0 <= Z.of_nat i < goroutines n L /\ chunk n L (Z.of_nat i) = (lo, hi).
Proof.
  intros Hi.
  assert (Hlt : (i < length (plan n L))%nat) by (eapply lookup_lt_Some; eauto).
  rewrite plan_length in Hlt. split; [lia|].
  rewrite <- (Nat2Z.id i), plan_lookup in Hi by lia. congruence.
Qed.

Lemma run_writes_chunk_written resp n L sched (i : nat) lo hi :
  valid_schedule sched -> 0 <= n -> 1 <= L ->
  plan n L !! i = Some (lo, hi) ->
  chunk_written (resp (Z.of_nat i)) lo hi
    (run_writes resp (chunk n L) (sched (goroutines n L)) (make None n)).
Proof.
  intros Hv Hn HL Hi. apply plan_lookup_inv in Hi as [Hrange Hchunk].
  assert (Hslot : forall p : nat, lo <= Z.of_nat p < hi ->
            run_writes resp (chunk n L) (sched (goroutines n L)) (make None n) !! p
            = slot_after (resp (Z.of_nat i)) lo p (Some None)).
  { intros p Hp.
    assert (Hhi : hi <= n).
    { pose proof (chunk_snd_le_n n L (Z.of_nat i)) as Hle.
      rewrite Hchunk in Hle. exact Hle. }
    replace lo with (chunk n L (Z.of_nat i)).1 by (rewrite Hchunk; reflexivity).
    replace (Some None) with (make (A := option error) None n !! p).
    2:{ apply lookup_replicate_2. lia. }
    apply run_lookup_owner.
    - apply valid_schedule_NoDup, Hv.
    - apply valid_schedule_elem; [exact Hv|lia].
    - apply Forall_forall. intros j Hj. apply valid_schedule_elem in Hj; [|exact Hv].
      rewrite chunk_fst. nia.
    - intros j _ Hne.
      apply (chunk_disjoint n L (Z.of_nat i) j); [exact HL|congruence|].
      rewrite Hchunk. exact Hp.
    - rewrite Hchunk. exact Hp.
    - unfold make. rewrite length_replicate. lia. }
  assert (Hlo : lo = Z.of_nat i * L) by (rewrite <- (chunk_fst n L), Hchunk; reflexivity).
  split.
  - intros e He Hscalar p Hp. rewrite Hslot by exact Hp. rewrite He.
    destruct e; try reflexivity. destruct (Hscalar errs eq_refl).
  - intros merr He j x Hj Hlt. rewrite Hslot by lia. rewrite He. simpl.
    replace (Z.to_nat lo + j - Z.to_nat lo)%nat with j by lia.
    rewrite Hj. reflexivity.
Qed.

(** ** The dispatchers *)

Lemma foldl_multiErr `{Host} (task : Shared -> Z -> Shared)
  (upd : Z -> list (option error) -> list (option error)) :
  (forall s i, multiErr (task s i) = upd i (multiErr s)) ->
  forall order s,
    multiErr (foldl task s order) = foldl (fun a i => upd i a) (multiErr s) order.
Proof.
  intros Hstep order. induction order as [|i order IH]; intros s; simpl;
    [reflexivity|]. rewrite IH, Hstep. reflexivity.
Qed.

Lemma foldl_calls `{Host} (task : Shared -> Z -> Shared) (call : Z -> Call Entity) :
  (forall s i, calls (task s i) = calls s ++ [call i]) ->
  forall order s, calls (foldl task s order) = calls s ++ (call <$> order).
Proof.
  intros Hstep order. induction order as [|i order IH]; intros s; simpl.
  - rewrite app_nil_r. reflexivity.
  - rewrite IH, Hstep, <- app_assoc. reflexivity.
Qed.

Lemma PutMulti_task_multiErr `{Host} keys v s i :
  multiErr (PutMulti_task keys v s i)
  = write (PutMulti_resp keys v i) (chunk (len keys) putMultiLimit i).1
      (chunk (len keys) putMultiLimit i).2 (multiErr s).
Proof.
  unfold PutMulti_task, PutMulti_resp.
  destruct (chunk (len keys) putMultiLimit i) as [lo hi].
  destruct (ds_PutMulti (slice keys lo hi) (slice v lo hi)) as [rkeys [[]|]];
    reflexivity.
Qed.

Lemma PutMulti_task_calls `{Host} keys v s i :
  calls (PutMulti_task keys v s i) = calls s ++ [PutMulti_call keys v i].
Proof.
  unfold PutMulti_task, PutMulti_call.
  destruct (chunk (len keys) putMultiLimit i) as [lo hi].
  destruct (ds_PutMulti (slice keys lo hi) (slice v lo hi)) as [rkeys [[]|]];
    reflexivity.
Qed.

Lemma PutMulti_dispatch_multiErr `{Host} sched keys v :
  multiErr (PutMulti_dispatch sched keys v)
  = run_writes (PutMulti_resp keys v) (chunk (len keys) putMultiLimit)
      (sched (goroutines (len keys) putMultiLimit)) (make None (len keys)).
Proof.
  unfold PutMulti_dispatch, run_writes.
  apply (foldl_multiErr (PutMulti_task keys v)
           (fun i => write (PutMulti_resp keys v i)
                       (chunk (len keys) putMultiLimit i).1
                       (chunk (len keys) putMultiLimit i).2)).
  apply PutMulti_task_multiErr.
Qed.

Lemma PutMulti_dispatch_calls `{Host} sched keys v :
  calls (PutMulti_dispatch sched keys v)
  = PutMulti_call keys v <$> sched (goroutines (len keys) putMultiLimit).
Proof.
  unfold PutMulti_dispatch.
  rewrite (foldl_calls _ (PutMulti_call keys v) (PutMulti_task_calls keys v)).
  reflexivity.
Qed.

Lemma DeleteMulti_task_multiErr `{Host} keys s i :
  multiErr (DeleteMulti_task keys s i)
  = write (DeleteMulti_resp keys i) (chunk (len keys) deleteMultiLimit i).1
      (chunk (len keys) deleteMultiLimit i).2 (multiErr s).
Proof.
  unfold DeleteMulti_task, DeleteMulti_resp.
  destruct (chunk (len keys) deleteMultiLimit i) as [lo hi].
  destruct (ds_DeleteMulti (slice keys lo hi)) as [[]|]; reflexivity.
Qed.

Lemma DeleteMulti_task_calls `{Host} keys s i :
  calls (DeleteMulti_task keys s i) = calls s ++ [DeleteMulti_call keys i].
Proof.
  unfold DeleteMulti_task, DeleteMulti_call.
  destruct (chunk (len keys) deleteMultiLimit i) as [lo hi].
  destruct (ds_DeleteMulti (slice keys lo hi)) as [[]|]; reflexivity.
Qed.

Lemma DeleteMulti_dispatch_multiErr `{Host} sched keys :
  multiErr (DeleteMulti_dispatch sched keys)
  = run_writes (DeleteMulti_resp keys) (chunk (len keys) deleteMultiLimit)
      (sched (goroutines (len keys) deleteMultiLimit)) (make None (len keys)).
Proof.
  unfold DeleteMulti_dispatch, run_writes.
  apply (foldl_multiErr (DeleteMulti_task keys)
           (fun i => write (DeleteMulti_resp keys i)
                       (chunk (len keys) deleteMultiLimit i).1
                       (chunk (len keys) deleteMultiLimit i).2)).
  apply DeleteMulti_task_multiErr.
Qed.

Lemma DeleteMulti_dispatch_calls `{Host} sched keys :
  calls (DeleteMulti_dispatch sched keys)
  = DeleteMulti_call keys <$> sched (goroutines (len keys) deleteMultiLimit).
Proof.
  unfold DeleteMulti_dispatch.
  rewrite (foldl_calls _ (DeleteMulti_call keys) (DeleteMulti_task_calls keys)).
  reflexivity.
Qed.

(** The service calls of [PutMulti] are those of the ranges of its plan,
    in the order the goroutines ran. *)
Lemma PutMulti_calls_follow_plan `{Host} sched keys v :
  valid_schedule sched ->
  calls (PutMulti_dispatch sched keys v)
  ≡ₚ (fun r => CallPutMulti (slice keys r.1 r.2) (slice v r.1 r.2))
       <$> plan (len keys) putMultiLimit.
Proof.
  intros Hv. rewrite PutMulti_dispatch_calls, (Hv _). unfold plan.
  rewrite <- list_fmap_compose. erewrite list_fmap_ext; [reflexivity|].
  intros _ i _. unfold PutMulti_call. simpl.
  destruct (chunk (len keys) putMultiLimit i). reflexivity.
Qed.


Lemma length_make {A} (z : A) n : length (make z n) = Z.to_nat n.
Proof. apply length_replicate. Qed.

Lemma realError_all_nil `{Host} (n : Z) : realError (make None n) = None.
Proof.
  unfold make. destruct (Z.to_nat n) as [|m]; [reflexivity|]. simpl.
  assert (Hloop : realError_loop None (replicate m None) = false).
  { apply realError_loop_uniform, Forall_forall.
    intros e He. apply elem_of_replicate in He as [-> _]. exact I. }
  rewrite Hloop. reflexivity.
Qed.

(** Outside a transaction [GetMulti] starts one goroutine, whose range is
    empty: it calls the service with no key and leaves every slot nil. *)
Lemma GetMulti_dispatch_nil `{Host} sched ignore keys :
  valid_schedule sched ->
  exists flag,
    GetMulti_dispatch sched ignore keys
    = Some (mkShared (make None (len keys)) flag [CallGetMulti [] []]).
Proof.
  intros Hv. unfold GetMulti_dispatch.
  change (goroutines (len (@nil Key)) getMultiLimit) with 1.
  rewrite (valid_schedule_one sched Hv). cbn [foldl].
  unfold GetMulti_task. cbn [mbind option_bind].
  change (chunk (len (@nil Key)) getMultiLimit 0) with (0, 0). cbn iota.
  change (slice (@nil Key) 0 0) with (@nil Key).
  change (slice (@nil Entity) 0 0) with (@nil Entity).
  change (slice (@nil Z) 0 0) with (@nil Z).
  destruct (ds_GetMulti [] []) as [loaded [[]|]]; cbn; eauto.
Qed.

Lemma GetMulti_chunked `{Host} sched ignore dst keys :
  valid_schedule sched ->
  extractKeys dst false = inl keys ->
  GetMulti sched {| inTransaction := false |} ignore dst
  = Some (None, items_of dst, [CallGetMulti [] []]).
Proof.
  intros Hv Hkeys. unfold GetMulti. rewrite Hkeys. simpl.
  destruct (GetMulti_dispatch_nil sched ignore keys Hv) as [flag ->]. simpl.
  destruct flag; [|reflexivity]. rewrite realError_all_nil. reflexivity.
Qed.

(** ** Key extraction *)

Lemma extractKeys_loop_put_ok `{Host} (items : list Entity) :
  Forall resolves items ->
  Forall (fun x => ~ empty_string_id x) items ->
  exists keys, extractKeys_loop items true = inl keys
               /\ Forall2 derived items keys.
Proof.
  intros Hres Hok. induction items as [|x items IH]; simpl.
  - exists []. split; [reflexivity|constructor].
  - apply Forall_cons in Hres as [(k & b & Hk) Hres].
    apply Forall_cons in Hok as [Hx Hok].
    destruct (IH Hres Hok) as (keys & -> & Hkeys). rewrite Hk.
    destruct (Incomplete k) eqn:Hinc, b; simpl.
    + destruct Hx. exists k. split; assumption.
    + exists (k :: keys). split; [reflexivity|]. constructor; [|exact Hkeys].
      exists false. exact Hk.
    + exists (k :: keys). split; [reflexivity|]. constructor; [|exact Hkeys].
      exists true. exact Hk.
    + exists (k :: keys). split; [reflexivity|]. constructor; [|exact Hkeys].
      exists false. exact Hk.
Qed.

Lemma extractKeys_loop_put_empty_id `{Host} (items : list Entity) :
  Forall resolves items ->
  Exists empty_string_id items ->
  extractKeys_loop items true = inr EmptyStringIdentity.
Proof.
  intros Hres Hbad. induction items as [|x items IH]; simpl.
  - apply Exists_nil in Hbad. destruct Hbad.
  - apply Forall_cons in Hres as [(k & b & Hk) Hres]. rewrite Hk.
    destruct (Incomplete k) eqn:Hinc, b; simpl; try reflexivity;
      (apply Exists_cons in Hbad as [(k' & Hk' & Hinc')|Hbad];
       [congruence | rewrite (IH Hres Hbad); reflexivity]).
Qed.

Lemma extractKeys_loop_get_missing `{Host} (items : list Entity) :
  Forall resolves items ->
  Exists incomplete_key items ->
  exists e, e ∈ items /\ incomplete_key e
            /\ extractKeys_loop items false = inr (MissingIdentity e).
Proof.
  intros Hres Hbad. induction items as [|x items IH]; simpl.
  - apply Exists_nil in Hbad. destruct Hbad.
  - apply Forall_cons in Hres as [(k & b & Hk) Hres]. rewrite Hk.
    destruct (Incomplete k) eqn:Hinc; simpl.
    + exists x. split; [apply list_elem_of_here|]. split; [|reflexivity].
      exists k, b. split; assumption.
    + apply Exists_cons in Hbad as [(k' & b' & Hk' & Hinc')|Hbad]; [congruence|].
      destruct (IH Hres Hbad) as (e & Hin & He & ->).
      exists e. split; [apply list_elem_of_further, Hin|]. split; [exact He|].
      destruct b; reflexivity.
Qed.

(** C5. A read batch in which some element has an incomplete derived key
    fails as a whole with the missing-identity error of such an element,
    and no service call is made; this holds inside and outside a
    transaction and for every schedule. *)
Theorem GetMulti_missing_identity `{Host} (sched : Schedule) (g : Gosto)
  (ignore : bool) (items : list Entity) :
  Forall resolves items ->
  Exists incomplete_key items ->
  exists e, e ∈ items /\ incomplete_key e
    /\ GetMulti sched g ignore (SliceOf items)
       = Some (Some (MissingIdentity e), items, []).
Proof.
  intros Hres Hbad.
  destruct (extractKeys_loop_get_missing items Hres Hbad) as (e & Hin & He & Hrun).
  exists e. split; [exact Hin|]. split; [exact He|].
  unfold GetMulti. simpl. rewrite Hrun. reflexivity.
Qed.

Lemma GetMulti_missing_identity_witness :
  exists e, GetMulti (H := Sample.host) in_order {| inTransaction := false |} true
              (SliceOf [Sample.UserInt 7; Sample.UserInt 0])
            = Some (Some (MissingIdentity (H := Sample.host) e),
                    [Sample.UserInt 7; Sample.UserInt 0], []).
Proof.
  destruct (GetMulti_missing_identity (H := Sample.host) in_order
              {| inTransaction := false |} true
              [Sample.UserInt 7; Sample.UserInt 0]) as (e & _ & _ & Hrun).
  - repeat constructor; eexists _, _; reflexivity.
  - apply Exists_cons_tl, Exists_cons_hd. eexists _, _. split; reflexivity.
  - exists e. exact Hrun.
Defined.

Lemma goroutines_pos (n L : Z) : 0 <= n -> 2 <= L -> 0 < goroutines n L.
Proof.
  intros Hn HL. destruct (decide (n = 0)) as [->|Hne].
  - unfold goroutines. change (0 - 1) with (- (1)).
    rewrite Z.quot_opp_l, Z.quot_small by lia. lia.
  - apply goroutines_bounds; lia.
Qed.

Lemma PutMulti_accepted `{Host} (sched : Schedule) (items : list Entity) keys :
  extractKeys_loop items true = inl keys ->
  exists err,
    PutMulti sched (SliceOf items)
    = (keys, err,
       PutMulti_call keys items <$> sched (goroutines (len keys) putMultiLimit)).
Proof.
  intros Hkeys. unfold PutMulti. simpl. rewrite Hkeys.
  rewrite PutMulti_dispatch_calls. destruct (anyFlag _); eauto.
Qed.

Lemma PutMulti_dispatch_single `{Host} (sched : Schedule) (x : Entity) (k : Key) :
  valid_schedule sched ->
  PutMulti_dispatch sched [k] [x]
  = PutMulti_task [k] [x] (mkShared [None] false []) 0.
Proof.
  intros Hv. unfold PutMulti_dispatch.
  change (goroutines (len [k]) putMultiLimit) with 1.
  rewrite (valid_schedule_one sched Hv). reflexivity.
Qed.

(** C4. On a create batch whose elements all have a derived key: when no
    element set an empty string identity, incomplete keys are accepted,
    the derived keys are returned and the chunk calls are issued with them
    (at least one call); when some element set an empty string identity,
    the whole call fails with the empty-string-identity error and no
    service call is made.  For the single [Put]: the service is called
    with the derived key, incomplete or not, and its success is the
    success of [Put]; an empty string identity fails before any call. *)
Theorem PutMulti_incomplete_keys `{Host} (sched : Schedule)
  (items : list Entity) :
  valid_schedule sched ->
  Forall resolves items ->
  (Forall (fun x => ~ empty_string_id x) items ->
     exists keys err,
       Forall2 derived items keys
       /\ PutMulti sched (SliceOf items)
          = (keys, err,
             PutMulti_call keys items <$> sched (goroutines (len keys) putMultiLimit))
       /\ 0 < goroutines (len keys) putMultiLimit)
  /\ (Exists empty_string_id items ->
        PutMulti sched (SliceOf items) = ([], Some EmptyStringIdentity, []))
  /\ (forall x, items = [x] ->
        (~ empty_string_id x ->
           exists k err, derived x k
             /\ PutMulti sched (SliceOf [x]) = ([k], err, [CallPutMulti [k] [x]])
             /\ ((ds_PutMulti [k] [x]).2 = None ->
                   Put sched x = Some (Some k, None, [CallPutMulti [k] [x]])))
        /\ (empty_string_id x ->
              Put sched x = Some (None, Some EmptyStringIdentity, []))).
Proof.
  intros Hv Hres. split; [|split].
  - intros Hok.
    destruct (extractKeys_loop_put_ok items Hres Hok) as (keys & Hkeys & Hder).
    destruct (PutMulti_accepted sched items keys Hkeys) as [err Hrun].
    exists keys, err. split; [exact Hder|]. split; [exact Hrun|].
    apply goroutines_pos; unfold len, putMultiLimit; lia.
  - intros Hbad. unfold PutMulti. simpl.
    rewrite (extractKeys_loop_put_empty_id items Hres Hbad). reflexivity.
  - intros x ->. split.
    + intros Hok.
      destruct (extractKeys_loop_put_ok [x] Hres) as (keys & Hkeys & Hder).
      { constructor; [exact Hok|constructor]. }
      apply Forall2_cons_inv_l in Hder as (k & keys' & Hk & Hnil & ->).
      apply Forall2_nil_inv_l in Hnil as ->.
      assert (Hcall : PutMulti_task [k] [x] (mkShared [None] false []) 0
                      = let '(rkeys, pmerr) := ds_PutMulti [k] [x] in
                        match pmerr with
                        | None => mkShared [None] false [CallPutMulti [k] [x]]
                        | Some (MultiError merr) =>
                            mkShared (copy [None] 0 1 merr) true [CallPutMulti [k] [x]]
                        | Some e =>
                            mkShared (fill [None] 0 1 (Some e)) true [CallPutMulti [k] [x]]
                        end) by reflexivity.
      assert (Hrun : exists err,
                PutMulti sched (SliceOf [x]) = ([k], err, [CallPutMulti [k] [x]])
                /\ ((ds_PutMulti [k] [x]).2 = None -> err = None)).
      { unfold PutMulti, extractKeys. rewrite Hkeys. simpl items_of.
        rewrite (PutMulti_dispatch_single sched x k Hv), Hcall.
        destruct (ds_PutMulti [k] [x]) as [rkeys [[]|]]; simpl;
          eexists; (split; [reflexivity|]); try discriminate; reflexivity. }
      destruct Hrun as (err & Hrun & Hnone).
      exists k, err. split; [exact Hk|]. split; [exact Hrun|].
      intros Hsvc. unfold Put. rewrite Hrun, (Hnone Hsvc). reflexivity.
    + intros Hbad. unfold Put, PutMulti, extractKeys.
      rewrite (extractKeys_loop_put_empty_id [x] Hres); [reflexivity|].
      apply Exists_cons_hd, Hbad.
Qed.

Lemma PutMulti_incomplete_keys_witness :
  PutMulti (H := Sample.host) in_order (SliceOf [Sample.UserInt 0; Sample.UserStr EmptyString])
  = ([], Some EmptyStringIdentity, [])
  /\ Put (H := Sample.host) in_order (Sample.UserInt 0)
     = Some (Some (mkKey "User" 0 EmptyString None), None,
             [CallPutMulti [mkKey "User" 0 EmptyString None] [Sample.UserInt 0]]).
Proof.
  split.
  - apply (PutMulti_incomplete_keys (H := Sample.host) in_order
             [Sample.UserInt 0; Sample.UserStr EmptyString] in_order_valid).
    + repeat constructor; eexists _, _; reflexivity.
    + apply Exists_cons_tl, Exists_cons_hd. eexists. split; reflexivity.
  - destruct (PutMulti_incomplete_keys (H := Sample.host) in_order
                [Sample.UserInt 0] in_order_valid) as (_ & _ & Hput).
    + repeat constructor; eexists _, _; reflexivity.
    + destruct (Hput (Sample.UserInt 0) eq_refl) as [Hok _].
      destruct Hok as (k & err & [b Hk] & _ & Hsucc).
      * intros (k & Hk & _). discriminate Hk.
      * injection Hk as <- <-. apply Hsucc. reflexivity.
Defined.

(** ** The in-transaction loop of [GetMulti] *)

Lemma seqZ_snoc (k : nat) : seqZ 0 (Z.of_nat (S k)) = seqZ 0 (Z.of_nat k) ++ [Z.of_nat k].
Proof.
  replace (Z.of_nat (S k)) with (Z.of_nat k + 1) by lia.
  rewrite seqZ_app by lia. reflexivity.
Qed.

Lemma GetMulti_tx_prefix ignore merr (N k : nat) :
  (k <= N)%nat -> (k <= length merr)%nat ->
  exists m a,
    foldl (GetMulti_tx_step ignore merr) (Some (replicate N None, false))
      (seqZ 0 (Z.of_nat k)) = Some (m, a)
    /\ length m = N
    /\ (forall p, (p < N)%nat ->
          m !! p = Some (if decide (p < k)%nat
                         then tx_slot ignore (default None (merr !! p))
                         else None))
    /\ (a = true <->
        exists p, (p < k)%nat /\ tx_slot ignore (default None (merr !! p)) <> None).
Proof.
  induction k as [|k IH]; intros HN Hlen.
  - exists (replicate N None), false. split; [reflexivity|].
    split; [apply length_replicate|]. split.
    + intros p Hp. rewrite lookup_replicate_2 by exact Hp. reflexivity.
    + split; [discriminate|]. intros (p & Hp & _). lia.
  - destruct IH as (m & a & Hrun & Hm & Hslots & Hflag); [lia|lia|].
    rewrite seqZ_snoc, foldl_app, Hrun. cbn [foldl].
    unfold GetMulti_tx_step at 1. cbn [mbind option_bind].
    rewrite Nat2Z.id.
    destruct (lookup_lt_is_Some_2 merr k ltac:(lia)) as [e He].
    rewrite He. cbn [mbind option_bind].
    assert (Hslot : tx_slot ignore (default None (merr !! k))
                    = if bool_decide (e ≠ None)
                         && (negb ignore || negb (errFieldMismatch e))
                      then e else None).
    { rewrite He. reflexivity. }
    destruct (bool_decide (e ≠ None) && (negb ignore || negb (errFieldMismatch e)))
      eqn:Hkeep.
    + exists (<[k := e]> m), true. split; [reflexivity|].
      split; [rewrite length_insert; exact Hm|]. split.
      * intros p Hp. destruct (decide (p = k)) as [->|Hne].
        -- rewrite list_lookup_insert_eq by lia.
           rewrite decide_True by lia. rewrite Hslot. reflexivity.
        -- rewrite list_lookup_insert_ne by congruence. rewrite Hslots by exact Hp.
           f_equal. repeat case_decide; try reflexivity; lia.
      * split; [|reflexivity]. intros _. exists k. split; [lia|].
        rewrite Hslot. apply andb_true_iff in Hkeep as [Hnn _].
        apply bool_decide_eq_true in Hnn. exact Hnn.
    + exists m, a. split; [reflexivity|]. split; [exact Hm|]. split.
      * intros p Hp. rewrite Hslots by exact Hp. f_equal.
        destruct (decide (p = k)) as [->|Hne].
        -- rewrite decide_False by lia. rewrite decide_True by lia.
           rewrite Hslot. reflexivity.
        -- repeat case_decide; try reflexivity; lia.
      * rewrite Hflag. split.
        -- intros (p & Hp & Hne). exists p. split; [lia|exact Hne].
        -- intros (p & Hp & Hne). exists p. split; [|exact Hne].
           destruct (decide (p = k)) as [->|]; [|lia].
           rewrite Hslot in Hne. congruence.
Qed.

(** The in-transaction loop over an itemized error at least as long as the
    batch: slot [p] is [merr[p]] unless that is nil or a tolerated field
    mismatch, and the flag is set when some slot is non-nil. *)
Lemma GetMulti_tx_outcomes_spec ignore merr (n : Z) :
  0 <= n <= len merr ->
  exists m a,
    GetMulti_tx_outcomes ignore merr n = Some (m, a)
    /\ len m = n
    /\ (forall (p : nat) e, Z.of_nat p < n -> merr !! p = Some e ->
          m !! p = Some (tx_slot ignore e))
    /\ (a = true <->
        exists (p : nat) e, Z.of_nat p < n /\ merr !! p = Some e
                            /\ tx_slot ignore e <> None).
Proof.
  intros Hn. unfold GetMulti_tx_outcomes, make.
  destruct (GetMulti_tx_prefix ignore merr (Z.to_nat n) (Z.to_nat n))
    as (m & a & Hrun & Hm & Hslots & Hflag); [lia|unfold len in Hn; lia|].
  rewrite Z2Nat.id in Hrun by lia.
  exists m, a. split; [exact Hrun|]. split; [unfold len; lia|]. split.
  - intros p e Hp He. rewrite Hslots by lia. rewrite decide_True by lia.
    rewrite He. reflexivity.
  - rewrite Hflag. split.
    + intros (p & Hp & Hne).
      destruct (lookup_lt_is_Some_2 merr p) as [e He]; [unfold len in Hn; lia|].
      exists p, e. rewrite He in Hne. split; [lia|]. split; [exact He|exact Hne].
    + intros (p & e & Hp & He & Hne). exists p. rewrite He. split; [lia|exact Hne].
Qed.

(** ** The outcome array of the batch operations *)

Lemma dispatch_written resp n L sched :
  valid_schedule sched -> 0 <= n -> 1 <= L ->
  let a := run_writes resp (chunk n L) (sched (goroutines n L)) (make None n) in
  len a = n
  /\ forall (i : nat) lo hi, plan n L !! i = Some (lo, hi) ->
       chunk_written (resp (Z.of_nat i)) lo hi a.
Proof.
  intros Hv Hn HL a. split.
  - unfold a, len. rewrite length_run, length_make. lia.
  - intros i lo hi Hi. apply run_writes_chunk_written; assumption.
Qed.

(** C6, as amended.  The outcome array has the length of the batch.  In
    [PutMulti] and [DeleteMulti], for every range of the plan and every
    schedule, a single error of the chunk call is in every slot of the
    range and an itemized error is copied element by element from the
    start of the range.  In the in-transaction branch of [GetMulti] a
    single error is in every slot, and element [p] of an itemized error is
    in slot [p] unless it is nil or a tolerated field mismatch, which
    leave the slot nil. *)
Theorem outcome_array_writes `{Host} (sched : Schedule) (keys : list Key) :
  valid_schedule sched ->
  (forall v,
     let a := multiErr (PutMulti_dispatch sched keys v) in
     len a = len keys
     /\ forall (i : nat) lo hi,
          plan (len keys) putMultiLimit !! i = Some (lo, hi) ->
          chunk_written (PutMulti_resp keys v (Z.of_nat i)) lo hi a)
  /\ (let a := multiErr (DeleteMulti_dispatch sched keys) in
      len a = len keys
      /\ forall (i : nat) lo hi,
           plan (len keys) deleteMultiLimit !! i = Some (lo, hi) ->
           chunk_written (DeleteMulti_resp keys (Z.of_nat i)) lo hi a)
  /\ (forall ignore,
        (exists s, GetMulti_dispatch sched ignore keys = Some s
                   /\ len (multiErr s) = len keys)
        /\ (forall e, (forall merr, e <> MultiError merr) ->
              exists m, GetMulti_tx_collect ignore e (len keys) = Some (m, true)
                /\ len m = len keys
                /\ forall p : nat, Z.of_nat p < len keys -> m !! p = Some (Some e))
        /\ (forall merr, len keys <= len merr ->
              exists m a,
                GetMulti_tx_collect ignore (MultiError merr) (len keys) = Some (m, a)
                /\ len m = len keys
                /\ forall (p : nat) e, Z.of_nat p < len keys -> merr !! p = Some e ->
                     m !! p = Some (tx_slot ignore e))).
Proof.
  intros Hv. assert (Hn : 0 <= len keys) by (unfold len; lia).
  split; [|split].
  - intros v a. unfold a. rewrite PutMulti_dispatch_multiErr.
    apply dispatch_written; [exact Hv|exact Hn|unfold putMultiLimit; lia].
  - intros a. unfold a. rewrite DeleteMulti_dispatch_multiErr.
    apply dispatch_written; [exact Hv|exact Hn|unfold deleteMultiLimit; lia].
  - intros ignore. split; [|split].
    + destruct (GetMulti_dispatch_nil sched ignore keys Hv) as [flag ->].
      eexists. split; [reflexivity|]. simpl. unfold len.
      rewrite length_make. unfold len. lia.
    + intros e Hscalar. exists (fill (make None (len keys)) 0 (len keys) (Some e)).
      split; [|split].
      * destruct e; try reflexivity. destruct (Hscalar errs eq_refl).
      * unfold len at 1. rewrite length_fill, length_make. lia.
      * intros p Hp. rewrite fill_lookup by lia. apply decide_True.
        rewrite length_make. lia.
    + intros merr Hlen.
      destruct (GetMulti_tx_outcomes_spec ignore merr (len keys))
        as (m & a & Hrun & Hm & Hslots & _); [lia|].
      exists m, a. split; [exact Hrun|]. split; [exact Hm|exact Hslots].
Qed.

Lemma outcome_array_writes_witness :
  let keys := [mkKey "User" 503 EmptyString None; mkKey "User" 3 EmptyString None] in
  multiErr (DeleteMulti_dispatch (H := Sample.host) in_order keys) !! 1%nat
  = Some (Some (errorString "datastore: unavailable")).
Proof.
  intros keys.
  destruct (outcome_array_writes (H := Sample.host) in_order keys in_order_valid)
    as (_ & (_ & Hdel) & _).
  destruct (Hdel 0%nat 0 2 eq_refl) as [Hscalar _].
  apply Hscalar.
  - reflexivity.
  - intros merr Heq. discriminate Heq.
  - lia.
Defined.

(** C6 as stated fails in [GetMulti]: inside a transaction, with the
    toggle on, the field-mismatch element of an itemized error is not
    copied to its slot. *)
Lemma GetMulti_mismatch_element_not_copied :
  let key := mkKey "User" 422 EmptyString None in
  exists merr e m a,
    (ds_GetMulti (Host := Sample.host) [key] [Sample.UserInt 422]).2
    = Some (MultiError merr)
    /\ merr !! 0%nat = Some (Some e)
    /\ GetMulti_tx_collect true (MultiError merr) (len [key]) = Some (m, a)
    /\ m !! 0%nat <> Some (Some e).
Proof.
  exists [Some Sample.mismatch], Sample.mismatch, [None], false.
  repeat split. discriminate.
Qed.

(** ** Empty and oversized batches *)

(** A delete of no key returns before the plan is made. *)
Lemma DeleteMulti_empty_batch `{Host} (sched : Schedule) :
  DeleteMulti sched [] = (None, []).
Proof. reflexivity. Qed.

(** C2.  The plan [PutMulti] makes for an empty batch is not empty: the
    truncating division gives one goroutine, with the range [[0, 0)], and
    that goroutine calls the service with no key. *)
Theorem PutMulti_empty_batch_one_call `{Host} (sched : Schedule) :
  valid_schedule sched ->
  plan 0 putMultiLimit = [(0, 0)]
  /\ exists err, PutMulti sched (SliceOf []) = ([], err, [CallPutMulti [] []]).
Proof.
  intros Hv. split; [reflexivity|].
  destruct (PutMulti_accepted sched [] [] eq_refl) as [err Hrun].
  exists err. rewrite Hrun.
  change (goroutines (len (@nil Key)) putMultiLimit) with 1.
  rewrite (valid_schedule_one sched Hv). reflexivity.
Qed.

Lemma PutMulti_empty_batch_one_call_witness :
  PutMulti (H := Sample.host) in_order (SliceOf []) = ([], None, [CallPutMulti [] []]).
Proof.
  destruct (PutMulti_empty_batch_one_call (H := Sample.host) in_order in_order_valid)
    as [_ [err Hrun]].
  rewrite Hrun. f_equal. f_equal.
  assert (Heq : (PutMulti (H := Sample.host) in_order (SliceOf [])).1.2 = None)
    by reflexivity.
  rewrite Hrun in Heq. exact Heq.
Defined.

Lemma extractKeys_loop_get_ok `{Host} (items : list Entity) :
  Forall (fun x => exists k b, getStructKey x = inl (k, b) /\ Incomplete k = false)
    items ->
  exists keys, extractKeys_loop items false = inl keys.
Proof.
  induction 1 as [|x items (k & b & Hk & Hinc) _ [keys IH]]; simpl.
  - exists []. reflexivity.
  - rewrite Hk, Hinc, IH. simpl. eauto.
Qed.

(** C3.  A read of 1200 entities outside a transaction: the plan for 1200
    keys has two ranges, but the goroutines are planned over [dskeys],
    which is never filled, so one goroutine runs and calls the service
    with no key. *)
Theorem GetMulti_1200_one_empty_call :
  let dst := Sample.users 1200 in
  plan 1200 getMultiLimit = [(0, 1000); (1000, 1200)]
  /\ len dst = 1200
  /\ GetMulti (H := Sample.host) in_order {| inTransaction := false |} true
       (SliceOf dst)
     = Some (None, dst, [CallGetMulti [] []]).
Proof.
  intros dst. split; [reflexivity|]. split; [reflexivity|].
  destruct (extractKeys_loop_get_ok (H := Sample.host) dst) as [keys Hkeys].
  - unfold dst, Sample.users. apply Forall_fmap, Forall_forall.
    intros j _. simpl. eexists _, _. split; [reflexivity|].
    unfold Incomplete. simpl. apply Z.eqb_neq. lia.
  - apply (GetMulti_chunked (H := Sample.host) in_order true (SliceOf dst) keys
             in_order_valid Hkeys).
Qed.

(** ** Field mismatches *)

(** The in-transaction branch of [GetMulti]: a field-mismatch element of
    an itemized error leaves its slot nil with the toggle on and is in its
    slot with the toggle off. *)
Lemma GetMulti_tx_field_mismatch (ignore : bool) merr (n : Z) (p : nat) e :
  0 <= n <= len merr -> Z.of_nat p < n ->
  merr !! p = Some (Some e) -> errFieldMismatch (Some e) = true ->
  exists m a,
    GetMulti_tx_outcomes ignore merr n = Some (m, a)
    /\ m !! p = Some (if ignore then None else Some e)
    /\ (ignore = false -> a = true).
Proof.
  intros Hn Hp He Hfm.
  destruct (GetMulti_tx_outcomes_spec ignore merr n Hn)
    as (m & a & Hrun & _ & Hslots & Hflag).
  exists m, a. split; [exact Hrun|]. split.
  - rewrite (Hslots p (Some e) Hp He). unfold tx_slot. rewrite Hfm.
    destruct ignore; reflexivity.
  - intros ->. apply Hflag. exists p, (Some e).
    split; [exact Hp|]. split; [exact He|]. discriminate.
Qed.

(** [GetAll] on a nil destination: a field mismatch of the query is
    dropped with the toggle on and returned with the toggle off. *)
Lemma GetAll_field_mismatch `{Host} (ignore : bool) q keys loaded e :
  ds_GetAll q DstNil = (keys, loaded, Some e) ->
  errFieldMismatch (Some e) = true ->
  GetAll ignore q DstNil
  = Some (keys, if ignore then None else Some e, DstNil).
Proof.
  intros Hsvc Hfm. unfold GetAll. rewrite Hsvc, Hfm.
  destruct ignore; reflexivity.
Qed.

(** [Iterator.Next]: a field mismatch of the cursor is dropped with the
    toggle on and returned with the toggle off. *)
Lemma Next_field_mismatch `{Host} (ignore : bool) t dst it' k e :
  ds_Next (i t) = (it', k, Some e) ->
  errFieldMismatch (Some e) = true ->
  (Next ignore t dst).1.1.2 = if ignore then None else Some e.
Proof.
  intros Hsvc Hfm. unfold Next. rewrite Hsvc, Hfm.
  destruct ignore, dst; reflexivity.
Qed.

(** C7.  Outside a transaction, with the toggle off, a stored entity that
    no longer fits the struct: the service would report the field mismatch
    for its key, but [GetMulti] and [Get] ask it about no key and return
    nil. *)
Theorem GetMulti_chunked_mismatch_not_surfaced :
  let key := mkKey "User" 422 EmptyString None in
  let g := {| inTransaction := false |} in
  (ds_GetMulti (Host := Sample.host) [key] [Sample.UserInt 422]).2
  = Some (MultiError [Some Sample.mismatch])
  /\ GetMulti (H := Sample.host) in_order g false (SliceOf [Sample.UserInt 422])
     = Some (None, [Sample.UserInt 422], [CallGetMulti [] []])
  /\ Get (H := Sample.host) in_order g false (Sample.UserInt 422)
     = Some (None, Sample.UserInt 422, [CallGetMulti [] []]).
Proof. repeat split. Qed.

(** ** Absent entities *)

(** C8, as amended.  Inside a transaction, for an entity with a complete
    key that the service reports absent: a one-element [GetMulti] returns
    the itemized array, on which [NotFound] at index 0 is true; [Get]
    unwraps it and returns the bare not-found sentinel, on which
    [NotFound] is false. *)
Theorem GetMulti_not_found_itemized `{Host} (sched : Schedule) (ignore : bool)
  (x : Entity) (k : Key) (b : bool) (v' : list Entity) :
  getStructKey x = inl (k, b) -> Incomplete k = false ->
  ds_GetMulti [k] [x] = (v', Some (MultiError [Some ErrNoSuchEntity])) ->
  let g := {| inTransaction := true |} in
  (exists err,
     GetMulti sched g ignore (SliceOf [x]) = Some (err, v', [CallGetMulti [k] [x]])
     /\ NotFound err 0 = Some true)
  /\ (isPtr x = true ->
      exists err,
        Get sched g ignore x = Some (err, x, [CallGetMulti [k] [x]])
        /\ err = Some ErrNoSuchEntity
        /\ NotFound err 0 = Some false).
Proof.
  intros Hk Hinc Hsvc g.
  assert (Hrun : GetMulti sched g ignore (SliceOf [x])
                 = Some (Some (MultiError [Some ErrNoSuchEntity]), v',
                         [CallGetMulti [k] [x]])).
  { unfold GetMulti, extractKeys. simpl extractKeys_loop. rewrite Hk, Hinc.
    simpl. rewrite Hsvc. destruct ignore; reflexivity. }
  split.
  - eexists. split; [exact Hrun|reflexivity].
  - intros Hptr. exists (Some ErrNoSuchEntity). unfold Get.
    rewrite Hptr, Hrun. repeat split.
Qed.

Lemma GetMulti_not_found_itemized_witness :
  exists err,
    GetMulti (H := Sample.host) in_order {| inTransaction := true |} true
      (SliceOf [Sample.UserInt 404])
    = Some (err, [Sample.UserInt 404],
            [CallGetMulti [mkKey "User" 404 EmptyString None] [Sample.UserInt 404]])
    /\ NotFound err 0 = Some true.
Proof.
  apply (GetMulti_not_found_itemized (H := Sample.host) in_order true
           (Sample.UserInt 404) (mkKey "User" 404 EmptyString None) false
           [Sample.UserInt 404]); reflexivity.
Defined.

(** C8 as stated fails for [Get]: inside a transaction, on an entity the
    service reports absent, the error [Get] returns is not itemized and
    [NotFound] at index 0 is false. *)
Lemma Get_not_found_not_itemized :
  let key := mkKey "User" 404 EmptyString None in
  (ds_GetMulti (Host := Sample.host) [key] [Sample.UserInt 404]).2
  = Some (MultiError [Some ErrNoSuchEntity])
  /\ exists err d log,
       Get (H := Sample.host) in_order {| inTransaction := true |} true
         (Sample.UserInt 404) = Some (err, d, log)
       /\ NotFound err 0 <> Some true.
Proof.
  split; [reflexivity|].
  exists (Some ErrNoSuchEntity), (Sample.UserInt 404),
    [CallGetMulti [mkKey "User" 404 EmptyString None] [Sample.UserInt 404]].
  split; [reflexivity|discriminate].
Qed.

(** ** The iterator *)

(** C9.  When the cursor's [Next] succeeds, or fails with a tolerated
    field mismatch, and the destination is not nil, [Iterator.Next]
    returns the key and a nil error whatever [setStructKey] returned: its
    error is dropped. *)
Theorem Next_discards_stamp_error `{Host} (ignore : bool) (t : Iterator)
  (d : Entity) it' k err :
  ds_Next (i t) = (it', k, err) ->
  err = None \/ (ignore = true /\ errFieldMismatch err = true) ->
  forall stamped serr, setStructKey (ds_load (i t) d) k = (stamped, serr) ->
  Next ignore t (Some d) = (k, None, Some stamped, {| i := it' |}).
Proof.
  intros Hsvc Hok stamped serr Hstamp. unfold Next. rewrite Hsvc. simpl.
  rewrite Hstamp. destruct Hok as [->|[-> Hfm]].
  - reflexivity.
  - rewrite Hfm. simpl. rewrite andb_false_r. reflexivity.
Qed.

Lemma Next_discards_stamp_error_witness :
  let k := mkKey "User" 7 EmptyString None in
  let t := @Build_Iterator Sample.host [(k, None)] in
  (setStructKey (Host := Sample.host) Sample.NotStruct (Some k)).2
  = Some (errorString "Gosto: Expected struct, got instead: int")
  /\ Next (H := Sample.host) true t (Some Sample.NotStruct)
     = (Some k, None, Some Sample.NotStruct, @Build_Iterator Sample.host []).
Proof.
  intros k t. split; [reflexivity|].
  apply (Next_discards_stamp_error (H := Sample.host) true t Sample.NotStruct
           [] (Some k) None eq_refl (or_introl eq_refl) Sample.NotStruct
           (Some (errorString "Gosto: Expected struct, got instead: int"))).
  reflexivity.
Defined.

(** * Further properties of the code *)

(** ** The collapser and the inspection helper together *)

(** X1.  The collapser returns nil exactly when every slot of the outcome
    array is nil: no error is dropped by the collapse and none is made
    up. *)
Theorem realError_nil_iff `{Host} (outcomes : list (option error)) :
  realError outcomes = None <-> Forall (eq None) outcomes.
Proof.
  destruct outcomes as [|init rest]; [split; [constructor|reflexivity]|].
  unfold realError. destruct (realError_loop init rest) eqn:Hloop.
  - split; [discriminate|]. intros Hnil.
    apply Forall_cons in Hnil as [<- Hrest].
    assert (Hfalse : realError_loop None rest = false).
    { apply realError_loop_uniform. eapply Forall_impl; [exact Hrest|].
      intros ? <-. exact I. }
    congruence.
  - apply realError_loop_uniform in Hloop.
    destruct init as [e|].
    + split.
      * destruct (errFieldMismatch (Some e)); [discriminate|].
        destruct (isErrInvalidEntityType (Some e) || isErrNoSuchEntity (Some e));
          discriminate.
      * intros Hnil. apply Forall_cons in Hnil as [Heq _]. discriminate Heq.
    + simpl. split; [|reflexivity]. intros _. constructor; [reflexivity|].
      eapply Forall_impl; [exact Hloop|]. intros [e|] Hag; [destruct Hag|reflexivity].
Qed.

(** X2.  An outcome array whose first slot is the not-found sentinel is
    never collapsed, and [NotFound] on the returned error answers for each
    index what the array holds there. *)
Theorem realError_keeps_not_found `{Host} (outcomes : list (option error)) :
  outcomes !! 0%nat = Some (Some ErrNoSuchEntity) ->
  realError outcomes = Some (MultiError outcomes)
  /\ forall idx, 0 <= idx ->
       (NotFound (realError outcomes) idx = Some true
        <-> outcomes !! Z.to_nat idx = Some (Some ErrNoSuchEntity)).
Proof.
  intros Hfirst. destruct outcomes as [|init rest]; [discriminate|].
  simpl in Hfirst. injection Hfirst as ->.
  assert (Hrun : realError (Some ErrNoSuchEntity :: rest)
                 = Some (MultiError (Some ErrNoSuchEntity :: rest))).
  { unfold realError. destruct (realError_loop _ rest); reflexivity. }
  split; [exact Hrun|]. intros idx Hidx. rewrite Hrun. unfold NotFound.
  set (m := Some ErrNoSuchEntity :: rest).
  destruct (Z.ltb_spec idx (len m)) as [Hlt|Hge].
  - destruct (Z.ltb_spec idx 0) as [Hneg|_]; [lia|].
    destruct (lookup_lt_is_Some_2 m (Z.to_nat idx)) as [slot Hslot];
      [unfold len in Hlt; lia|].
    rewrite Hslot. simpl. split.
    + intros [= Hb]. apply isErrNoSuchEntity_true in Hb. congruence.
    + intros [= ->]. reflexivity.
  - rewrite lookup_ge_None_2 by (unfold len in Hge; lia).
    split; discriminate.
Qed.

Lemma realError_keeps_not_found_witness :
  NotFound (realError (H := Sample.host)
              [Some ErrNoSuchEntity; None; Some ErrNoSuchEntity]) 2 = Some true.
Proof.
  apply (realError_keeps_not_found (H := Sample.host)
           [Some ErrNoSuchEntity; None; Some ErrNoSuchEntity] eq_refl); [lia|].
  reflexivity.
Defined.

(** ** Key extraction, in full *)

Lemma extractKeys_loop_inl `{Host} (put : bool) (items : list Entity) keys :
  extractKeys_loop items put = inl keys ->
  Forall (acceptable put) items /\ Forall2 derived items keys.
Proof.
  revert keys. induction items as [|x items IH]; intros keys; simpl.
  - intros [= <-]. split; constructor.
  - destruct (getStructKey x) as [[k b]|err] eqn:Hk; [|discriminate].
    destruct (negb put && Incomplete k) eqn:Hget; [discriminate|].
    destruct (put && Incomplete k && b) eqn:Hput; [discriminate|].
    destruct (extractKeys_loop items put) as [keys'|] eqn:Hrest; [|discriminate].
    intros [= <-]. destruct (IH keys' eq_refl) as [Hacc Hder]. split.
    + constructor; [|exact Hacc]. exists k, b. split; [exact Hk|].
      destruct put; simpl in *; assumption.
    + constructor; [|exact Hder]. exists b. exact Hk.
Qed.

Lemma extractKeys_loop_acceptable `{Host} (put : bool) (items : list Entity) :
  Forall (acceptable put) items ->
  exists keys, extractKeys_loop items put = inl keys.
Proof.
  induction 1 as [|x items (k & b & Hk & Hchk) _ [keys IH]]; simpl.
  - exists []. reflexivity.
  - rewrite Hk, IH. destruct put; simpl.
    + rewrite Hchk. eauto.
    + rewrite Hchk. simpl. eauto.
Qed.

(** X3.  Key extraction succeeds exactly when every element has a derived
    key that passes the check of the intent (complete for a read; for a
    create, not both incomplete and flagged as a string identity); the
    keys then come one per element, in order, and on a read each of them
    is complete. *)
Theorem extractKeys_succeeds_iff `{Host} (put : bool) (items : list Entity) :
  ((exists keys, extractKeys (SliceOf items) put = inl keys)
   <-> Forall (acceptable put) items)
  /\ forall keys, extractKeys (SliceOf items) put = inl keys ->
       Forall2 derived items keys
       /\ length keys = length items
       /\ (put = false -> Forall (fun k => Incomplete k = false) keys).
Proof.
  simpl. split.
  - split.
    + intros [keys Hkeys]. apply (extractKeys_loop_inl put items keys Hkeys).
    + apply extractKeys_loop_acceptable.
  - intros keys Hkeys.
    destruct (extractKeys_loop_inl put items keys Hkeys) as [Hacc Hder].
    split; [exact Hder|]. split; [symmetry; eapply Forall2_length, Hder|].
    intros ->. clear Hkeys. induction Hder as [|x k items keys [b Hk] Hder IH].
    + constructor.
    + apply Forall_cons in Hacc as [(k' & b' & Hk' & Hc) Hacc].
      constructor; [congruence|exact (IH Hacc)].
Qed.

(** ** What the plan covers *)

Lemma plan_partition_witness :
  len (plan 1200 500) = 3
  /\ exists i lo hi, plan 1200 500 !! i = Some (lo, hi) /\ lo <= 1100 < hi.
Proof.
  destruct (plan_partition 1200 500 ltac:(lia) ltac:(lia)) as (Hlen & _ & Hcover).
  split; [exact Hlen|].
  destruct (Hcover 1100 ltac:(lia)) as (i & lo & hi & Hlook & Hin & _).
  exists i, lo, hi. split; assumption.
Defined.

Lemma slice_chunk {A} (l : list A) (L i : Z) :
  1 <= L -> 0 <= i ->
  slice l (chunk (len l) L i).1 (chunk (len l) L i).2
  = take (Z.to_nat L) (drop (Z.to_nat i * Z.to_nat L) l).
Proof.
  intros HL Hi. unfold slice, chunk, len. simpl.
  rewrite Z2Nat.inj_mul by lia.
  set (i' := Z.to_nat i). set (L' := Z.to_nat L).
  assert (Hi' : i = Z.of_nat i') by lia. assert (HL' : L = Z.of_nat L') by lia.
  rewrite Hi', HL'. clearbody i' L'. subst i L.
  destruct (Z.gtb_spec ((Z.of_nat i' + 1) * Z.of_nat L') (Z.of_nat (length l)))
    as [Hcut|Hfit].
  - destruct (decide (i' * L' <= length l)%nat) as [Hin|Hout].
    + rewrite !take_ge; [reflexivity| |]; rewrite length_drop; nia.
    + rewrite drop_ge by lia. rewrite !take_nil. reflexivity.
  - f_equal. nia.
Qed.

Lemma mjoin_take_drop {A} (l : list A) (L g : nat) :
  mjoin ((fun i => take L (drop (i * L) l)) <$> seq 0 g) = take (g * L) l.
Proof.
  induction g as [|g IH]; [reflexivity|].
  rewrite seq_S, fmap_app, join_app, IH. simpl.
  rewrite app_nil_r, take_take_drop. f_equal. lia.
Qed.

(** The slices of a list at the ranges of its plan, put end to end, are
    the list. *)
Lemma plan_slices_cover {A} (l : list A) (L : Z) :
  1 <= L ->
  mjoin ((fun r => slice l r.1 r.2) <$> plan (len l) L) = l.
Proof.
  intros HL. unfold plan, seqZ. rewrite <- !list_fmap_compose.
  erewrite list_fmap_ext.
  2:{ intros _ i _. cbn [compose]. rewrite Z.add_0_r.
      rewrite slice_chunk by lia. rewrite Nat2Z.id. reflexivity. }
  rewrite mjoin_take_drop. apply take_ge.
  destruct (decide (length l = 0)%nat) as [Hnil|Hpos]; [lia|].
  destruct (goroutines_bounds (len l) L) as (Hg & _ & Hhi);
    [unfold len; lia|exact HL|].
  unfold len in *. nia.
Qed.

(** X5.  [PutMulti] hands every key to the service exactly once: whatever
    the order of the goroutines, the keys of the logged calls are, up to
    the order of the calls, the extracted keys, and with the goroutines in
    start order they are the extracted keys in order. *)
Theorem PutMulti_sends_every_key_once `{Host} (sched : Schedule)
  (items : list Entity) (keys : list Key) :
  valid_schedule sched ->
  extractKeys (SliceOf items) true = inl keys ->
  mjoin (keys_of_call <$> (PutMulti sched (SliceOf items)).2) ≡ₚ keys
  /\ mjoin (keys_of_call <$> (PutMulti in_order (SliceOf items)).2) = keys.
Proof.
  intros Hv Hkeys.
  assert (Hlog : forall s, (PutMulti s (SliceOf items)).2
                           = calls (PutMulti_dispatch s keys items)).
  { intros s. unfold PutMulti. rewrite Hkeys. simpl.
    destruct (anyFlag _); reflexivity. }
  assert (Hplan : mjoin (keys_of_call <$>
                    ((fun r => CallPutMulti (slice keys r.1 r.2) (slice items r.1 r.2))
                       <$> plan (len keys) putMultiLimit)) = keys).
  { rewrite <- list_fmap_compose.
    erewrite list_fmap_ext; [apply (plan_slices_cover keys putMultiLimit)|].
    - unfold putMultiLimit. lia.
    - intros _ r _. reflexivity. }
  split.
  - rewrite Hlog, (PutMulti_calls_follow_plan sched keys items Hv), Hplan.
    reflexivity.
  - rewrite Hlog, PutMulti_dispatch_calls. unfold in_order.
    etransitivity; [|exact Hplan]. do 2 f_equal. unfold plan.
    rewrite <- list_fmap_compose. apply list_fmap_ext.
    intros _ i _. unfold PutMulti_call. simpl.
    destruct (chunk (len keys) putMultiLimit i). reflexivity.
Qed.

Lemma PutMulti_sends_every_key_once_witness :
  let items := Sample.users 1200 in
  exists keys,
    length keys = 1200%nat
    /\ mjoin (keys_of_call <$> (PutMulti (H := Sample.host) in_order (SliceOf items)).2)
       = keys.
Proof.
  intros items.
  destruct (extractKeys_loop_acceptable (H := Sample.host) true items) as [keys Hkeys].
  - unfold items, Sample.users. apply Forall_fmap, Forall_forall.
    intros j _. eexists _, _. split; [reflexivity|]. apply andb_false_r.
  - exists keys. split.
    + apply extractKeys_loop_inl in Hkeys as [_ Hder].
      apply Forall2_length in Hder. rewrite <- Hder. reflexivity.
    + apply (PutMulti_sends_every_key_once (H := Sample.host) in_order items keys
               in_order_valid Hkeys).
Defined.



(** ** The dispatchers, whatever the order of the goroutines *)

Lemma existsb_Permutation {A} (f : A -> bool) (l1 l2 : list A) :
  l1 ≡ₚ l2 -> existsb f l1 = existsb f l2.
Proof.
  induction 1 as [|x l1 l2 _ IH|x y l|l1 l2 l3 _ IH1 _ IH2]; simpl.
  - reflexivity.
  - rewrite IH. reflexivity.
  - destruct (f x), (f y); reflexivity.
  - congruence.
Qed.

Lemma existsb_false_Forall {A} (f : A -> bool) (l : list A) :
  Forall (fun x => f x = false) l -> existsb f l = false.
Proof. induction 1 as [|x l Hx _ IH]; simpl; [reflexivity|]. rewrite Hx, IH. reflexivity. Qed.

Lemma existsb_true_elem {A} (f : A -> bool) (l : list A) x :
  x ∈ l -> f x = true -> existsb f l = true.
Proof.
  intros Hin Hx. induction Hin as [x l|x y l _ IH]; simpl.
  - rewrite Hx. reflexivity.
  - rewrite IH by exact Hx. apply orb_true_r.
Qed.

Lemma chunk_owner (n L j : Z) :
  1 <= L -> 0 <= j < n ->
  0 <= j `div` L < goroutines n L
  /\ (chunk n L (j `div` L)).1 <= j < (chunk n L (j `div` L)).2.
Proof.
  intros HL Hj.
  destruct (goroutines_bounds n L ltac:(lia) HL) as (Hg & Hglo & Hghi).
  pose proof (Z.mul_div_le j L ltac:(lia)) as Hdl.
  pose proof (Z.mul_succ_div_gt j L ltac:(lia)) as Hdu.
  pose proof (Z.div_pos j L ltac:(lia) ltac:(lia)) as Hq.
  assert (Hrange : 0 <= j `div` L < goroutines n L) by (split; [lia|nia]).
  split; [exact Hrange|].
  pose proof (chunk_bounds n L _ ltac:(lia) HL Hrange) as Hb.
  destruct (chunk n L (j `div` L)) as [lo hi]. simpl.
  destruct Hb as (Hlo & Hhi & Hlen & Hmid & Hlast).
  destruct (Z.eq_dec (j `div` L + 1) (goroutines n L)) as [Heq|Hne].
  - rewrite (Hlast Heq). lia.
  - rewrite Hmid by lia. lia.
Qed.

(** Every slot of the outcome array after the fan-out, from the error of
    the one chunk call that owns it. *)
Lemma run_writes_lookup resp (n L : Z) sched (p : nat) :
  valid_schedule sched -> 1 <= L -> Z.of_nat p < n ->
  let i := Z.of_nat p `div` L in
  run_writes resp (chunk n L) (sched (goroutines n L)) (make None n) !! p
  = slot_after (resp i) (i * L) p (Some None).
Proof.
  intros Hv HL Hp i.
  destruct (chunk_owner n L (Z.of_nat p) HL ltac:(lia)) as [Hrange Hin].
  fold i in Hrange, Hin. rewrite <- (chunk_fst n L i).
  replace (Some None) with (make (A := option error) None n !! p).
  2:{ apply lookup_replicate_2. lia. }
  apply run_lookup_owner.
  - apply valid_schedule_NoDup, Hv.
  - apply valid_schedule_elem; [exact Hv|exact Hrange].
  - apply Forall_forall. intros j Hj. apply valid_schedule_elem in Hj; [|exact Hv].
    rewrite chunk_fst. nia.
  - intros j _ Hne. apply (chunk_disjoint n L i j); [exact HL|congruence|exact Hin].
  - exact Hin.
  - rewrite length_make. lia.
Qed.

Lemma run_writes_schedule resp (n L : Z) sched1 sched2 :
  valid_schedule sched1 -> valid_schedule sched2 -> 1 <= L ->
  run_writes resp (chunk n L) (sched1 (goroutines n L)) (make None n)
  = run_writes resp (chunk n L) (sched2 (goroutines n L)) (make None n).
Proof.
  intros Hv1 Hv2 HL. apply list_eq. intros p.
  destruct (decide (Z.of_nat p < n)) as [Hp|Hp].
  - rewrite !run_writes_lookup by assumption. reflexivity.
  - rewrite !lookup_ge_None_2; [reflexivity| |];
      rewrite length_run, length_make; lia.
Qed.

Lemma dispatch_error_schedule `{Host} resp (n L : Z) sched1 sched2 :
  valid_schedule sched1 -> valid_schedule sched2 -> 1 <= L ->
  dispatch_error resp n L (sched1 (goroutines n L))
  = dispatch_error resp n L (sched2 (goroutines n L)).
Proof.
  intros Hv1 Hv2 HL. unfold dispatch_error.
  rewrite (existsb_Permutation _ (sched1 (goroutines n L)) (sched2 (goroutines n L))).
  - rewrite (run_writes_schedule resp n L sched1 sched2) by assumption.
    reflexivity.
  - rewrite (Hv1 _), (Hv2 _). reflexivity.
Qed.

Lemma realError_slot_not_nil `{Host} (m : list (option error)) (p : nat) e :
  m !! p = Some (Some e) -> realError m <> None.
Proof.
  intros Hp. destruct m as [|init rest]; [discriminate|].
  unfold realError. destruct (realError_loop init rest) eqn:Hloop; [discriminate|].
  apply realError_loop_uniform in Hloop.
  destruct init as [e0|].
  - destruct (errFieldMismatch (Some e0)); [discriminate|].
    destruct (isErrInvalidEntityType (Some e0) || isErrNoSuchEntity (Some e0));
      discriminate.
  - destruct p as [|p]; [discriminate|]. simpl in Hp.
    rewrite Forall_forall in Hloop.
    destruct (Hloop (Some e)). apply list_elem_of_lookup. eauto.
Qed.

(** What the collapsed error of a fan-out says about the chunk calls. *)
Lemma dispatch_error_spec `{Host} resp (n L : Z) sched :
  valid_schedule sched -> 0 <= n -> 1 <= L ->
  let err := dispatch_error resp n L (sched (goroutines n L)) in
  ((forall i, 0 <= i < goroutines n L -> resp i = None) -> err = None)
  /\ (n = 0 -> err = None)
  /\ (forall i e, 1 <= n -> 0 <= i < goroutines n L ->
        resp i = Some e -> scalar e -> err <> None)
  /\ (forall i merr (j : nat) e, 0 <= i < goroutines n L ->
        resp i = Some (MultiError merr) -> merr !! j = Some (Some e) ->
        i * L + Z.of_nat j < (chunk n L i).2 -> err <> None).
Proof.
  intros Hv Hn HL err. unfold err, dispatch_error.
  split; [|split; [|split]].
  - intros Hall. rewrite existsb_false_Forall; [reflexivity|].
    apply Forall_forall. intros i Hi. apply valid_schedule_elem in Hi; [|exact Hv].
    rewrite (Hall i Hi). reflexivity.
  - intros ->. destruct (existsb _ _); [|reflexivity].
    assert (Hnil : run_writes resp (chunk 0 L) (sched (goroutines 0 L)) (make None 0)
                   = []).
    { apply length_zero_iff_nil. rewrite length_run. reflexivity. }
    rewrite Hnil. reflexivity.
  - intros i e Hn1 Hi Hresp Hscalar.
    rewrite (existsb_true_elem _ _ i).
    2:{ apply valid_schedule_elem; [exact Hv|exact Hi]. }
    2:{ rewrite Hresp. reflexivity. }
    pose proof (chunk_bounds n L i Hn1 HL Hi) as Hb.
    destruct (chunk n L i) as [lo hi] eqn:Hchunk.
    destruct Hb as (Hlo & Hhi & _).
    destruct (dispatch_written resp n L sched Hv Hn HL) as [_ Hwritten].
    destruct (Hwritten (Z.to_nat i) lo hi) as [Hfill _].
    { rewrite plan_lookup by exact Hi. rewrite Hchunk. reflexivity. }
    rewrite Z2Nat.id in Hfill by lia.
    apply (realError_slot_not_nil _ (Z.to_nat lo) e).
    apply (Hfill e Hresp Hscalar). nia.
  - intros i merr j e Hi Hresp Hj Hlt.
    rewrite (existsb_true_elem _ _ i).
    2:{ apply valid_schedule_elem; [exact Hv|exact Hi]. }
    2:{ rewrite Hresp. reflexivity. }
    destruct (chunk n L i) as [lo hi] eqn:Hchunk. simpl in Hlt.
    assert (Hlo : lo = i * L) by (rewrite <- (chunk_fst n L i), Hchunk; reflexivity).
    destruct (dispatch_written resp n L sched Hv Hn HL) as [_ Hwritten].
    destruct (Hwritten (Z.to_nat i) lo hi) as [_ Hcopy].
    { rewrite plan_lookup by exact Hi. rewrite Hchunk. reflexivity. }
    rewrite Z2Nat.id in Hcopy by lia.
    apply (realError_slot_not_nil _ (Z.to_nat lo + j) e).
    apply (Hcopy merr Hresp j (Some e) Hj). lia.
Qed.

Lemma foldl_anyFlag `{Host} (task : Shared -> Z -> Shared) (f : Z -> bool) :
  (forall s i, anyFlag (task s i) = anyFlag s || f i) ->
  forall order s, anyFlag (foldl task s order) = anyFlag s || existsb f order.
Proof.
  intros Hstep order. induction order as [|i order IH]; intros s; simpl.
  - rewrite orb_false_r. reflexivity.
  - rewrite IH, Hstep, orb_assoc. reflexivity.
Qed.

Lemma PutMulti_task_anyFlag `{Host} keys v s i :
  anyFlag (PutMulti_task keys v s i)
  = anyFlag s || bool_decide (PutMulti_resp keys v i <> None).
Proof.
  unfold PutMulti_task, PutMulti_resp.
  destruct (chunk (len keys) putMultiLimit i) as [lo hi].
  destruct (ds_PutMulti (slice keys lo hi) (slice v lo hi)) as [rkeys [[]|]];
    simpl; rewrite ?orb_true_r, ?orb_false_r; reflexivity.
Qed.

Lemma DeleteMulti_task_anyFlag `{Host} keys s i :
  anyFlag (DeleteMulti_task keys s i)
  = anyFlag s || bool_decide (DeleteMulti_resp keys i <> None).
Proof.
  unfold DeleteMulti_task, DeleteMulti_resp.
  destruct (chunk (len keys) deleteMultiLimit i) as [lo hi].
  destruct (ds_DeleteMulti (slice keys lo hi)) as [[]|];
    simpl; rewrite ?orb_true_r, ?orb_false_r; reflexivity.
Qed.

Lemma PutMulti_error `{Host} sched (items : list Entity) keys :
  extractKeys (SliceOf items) true = inl keys ->
  (PutMulti sched (SliceOf items)).1
  = (keys, dispatch_error (PutMulti_resp keys items) (len keys) putMultiLimit
             (sched (goroutines (len keys) putMultiLimit))).
Proof.
  intros Hkeys. unfold PutMulti. rewrite Hkeys. simpl.
  unfold dispatch_error. rewrite <- PutMulti_dispatch_multiErr.
  assert (Hflag : anyFlag (PutMulti_dispatch sched keys items)
                  = existsb (fun i => bool_decide (PutMulti_resp keys items i <> None))
                      (sched (goroutines (len keys) putMultiLimit))).
  { unfold PutMulti_dispatch.
    rewrite (foldl_anyFlag _ _ (PutMulti_task_anyFlag keys items)). reflexivity. }
  rewrite <- Hflag. destruct (anyFlag _); reflexivity.
Qed.

Lemma DeleteMulti_error `{Host} sched keys :
  (DeleteMulti sched keys).1
  = if len keys =? 0 then None
    else dispatch_error (DeleteMulti_resp keys) (len keys) deleteMultiLimit
           (sched (goroutines (len keys) deleteMultiLimit)).
Proof.
  unfold DeleteMulti. destruct (len keys =? 0); [reflexivity|]. simpl.
  unfold dispatch_error. rewrite <- DeleteMulti_dispatch_multiErr.
  assert (Hflag : anyFlag (DeleteMulti_dispatch sched keys)
                  = existsb (fun i => bool_decide (DeleteMulti_resp keys i <> None))
                      (sched (goroutines (len keys) deleteMultiLimit))).
  { unfold DeleteMulti_dispatch.
    rewrite (foldl_anyFlag _ _ (DeleteMulti_task_anyFlag keys)). reflexivity. }
  rewrite <- Hflag. destruct (anyFlag _); reflexivity.
Qed.

(** X7.  The keys and the error [PutMulti] returns do not depend on the
    order in which its goroutines run; the service calls are the same up
    to their order. *)
Theorem PutMulti_schedule_independent `{Host} (sched1 sched2 : Schedule)
  (src : Src Entity) :
  valid_schedule sched1 -> valid_schedule sched2 ->
  (PutMulti sched1 src).1 = (PutMulti sched2 src).1
  /\ (PutMulti sched1 src).2 ≡ₚ (PutMulti sched2 src).2.
Proof.
  intros Hv1 Hv2. destruct src as [items|]; [|split; reflexivity].
  destruct (extractKeys (SliceOf items) true) as [keys|err] eqn:Hkeys.
  - split.
    + rewrite !(PutMulti_error _ items keys Hkeys). f_equal.
      apply dispatch_error_schedule; [exact Hv1|exact Hv2|unfold putMultiLimit; lia].
    + unfold PutMulti. rewrite Hkeys. simpl.
      assert (Hlog : forall s, valid_schedule s ->
                (if anyFlag (PutMulti_dispatch s keys items)
                 then (keys, realError (multiErr (PutMulti_dispatch s keys items)),
                       calls (PutMulti_dispatch s keys items))
                 else (keys, None, calls (PutMulti_dispatch s keys items))).2
                ≡ₚ PutMulti_call keys items
                     <$> seqZ 0 (goroutines (len keys) putMultiLimit)).
      { intros s Hs. destruct (anyFlag _); simpl;
          rewrite PutMulti_dispatch_calls, (Hs _); reflexivity. }
      rewrite (Hlog sched1 Hv1), (Hlog sched2 Hv2). reflexivity.
  - unfold PutMulti. rewrite Hkeys. split; reflexivity.
Qed.

Lemma PutMulti_schedule_independent_witness :
  let src := SliceOf (Sample.users 1200) in
  (PutMulti (H := Sample.host) (fun g => reverse (seqZ 0 g)) src).1
  = (PutMulti (H := Sample.host) in_order src).1.
Proof.
  intros src.
  apply (PutMulti_schedule_independent (H := Sample.host)
           (fun g => reverse (seqZ 0 g)) in_order src).
  - intros g. apply reverse_Permutation.
  - exact in_order_valid.
Defined.

(** X8.  The error [DeleteMulti] returns does not depend on the order in
    which its goroutines run; the service calls are the same up to their
    order. *)
Theorem DeleteMulti_schedule_independent `{Host} (sched1 sched2 : Schedule)
  (keys : list Key) :
  valid_schedule sched1 -> valid_schedule sched2 ->
  (DeleteMulti sched1 keys).1 = (DeleteMulti sched2 keys).1
  /\ (DeleteMulti sched1 keys).2 ≡ₚ (DeleteMulti sched2 keys).2.
Proof.
  intros Hv1 Hv2. split.
  - rewrite !DeleteMulti_error. destruct (len keys =? 0); [reflexivity|].
    apply dispatch_error_schedule; [exact Hv1|exact Hv2|unfold deleteMultiLimit; lia].
  - unfold DeleteMulti. destruct (len keys =? 0); [reflexivity|]. simpl.
    assert (Hlog : forall s, valid_schedule s ->
              (if anyFlag (DeleteMulti_dispatch s keys)
               then (realError (multiErr (DeleteMulti_dispatch s keys)),
                     calls (DeleteMulti_dispatch s keys))
               else (None, calls (DeleteMulti_dispatch s keys))).2
              ≡ₚ DeleteMulti_call keys
                   <$> seqZ 0 (goroutines (len keys) deleteMultiLimit)).
    { intros s Hs. destruct (anyFlag _); simpl;
        rewrite DeleteMulti_dispatch_calls, (Hs _); reflexivity. }
    rewrite (Hlog sched1 Hv1), (Hlog sched2 Hv2). reflexivity.
Qed.

Lemma DeleteMulti_schedule_independent_witness :
  let keys := (fun j => mkKey "User" (Z.of_nat j) EmptyString None) <$> seq 1 600 in
  (DeleteMulti (H := Sample.host) (fun g => reverse (seqZ 0 g)) keys).1
  = (DeleteMulti (H := Sample.host) in_order keys).1.
Proof.
  intros keys.
  apply (DeleteMulti_schedule_independent (H := Sample.host)
           (fun g => reverse (seqZ 0 g)) in_order keys).
  - intros g. apply reverse_Permutation.
  - exact in_order_valid.
Defined.

(** X9.  [PutMulti] returns a nil error when every chunk call returned
    nil, and for an empty batch whatever the service answered; it returns
    a non-nil error when, in a non-empty batch, some chunk call failed
    with a single error, and when some chunk call failed with an itemized
    error holding a non-nil element inside the range of the chunk. *)
Theorem PutMulti_reports_failures `{Host} (sched : Schedule)
  (items : list Entity) (keys : list Key) :
  valid_schedule sched ->
  extractKeys (SliceOf items) true = inl keys ->
  let g := goroutines (len keys) putMultiLimit in
  let resp := PutMulti_resp keys items in
  let err := (PutMulti sched (SliceOf items)).1.2 in
  ((forall i, 0 <= i < g -> resp i = None) -> err = None)
  /\ (keys = [] -> err = None)
  /\ (forall i e, keys <> [] -> 0 <= i < g -> resp i = Some e -> scalar e ->
        err <> None)
  /\ (forall i merr (j : nat) e, 0 <= i < g ->
        resp i = Some (MultiError merr) -> merr !! j = Some (Some e) ->
        i * putMultiLimit + Z.of_nat j < (chunk (len keys) putMultiLimit i).2 ->
        err <> None).
Proof.
  intros Hv Hkeys g resp err. unfold err.
  rewrite (PutMulti_error sched items keys Hkeys). simpl.
  destruct (dispatch_error_spec resp (len keys) putMultiLimit sched Hv)
    as (Hok & Hempty & Hscalar & Hitem);
    [unfold len; lia|unfold putMultiLimit; lia|].
  split; [exact Hok|]. split; [|split].
  - intros ->. apply Hempty. reflexivity.
  - intros i e Hne. apply Hscalar. destruct keys; [congruence|].
    unfold len. simpl. lia.
  - exact Hitem.
Qed.

Lemma PutMulti_reports_failures_witness :
  (PutMulti (H := Sample.host) in_order (SliceOf [Sample.UserInt 503])).1.2 <> None.
Proof.
  destruct (PutMulti_reports_failures (H := Sample.host) in_order
              [Sample.UserInt 503] [mkKey "User" 503 EmptyString None]
              in_order_valid eq_refl) as (_ & _ & Hscalar & _).
  apply (Hscalar 0 (errorString "datastore: unavailable")).
  - discriminate.
  - split; [lia|reflexivity].
  - reflexivity.
  - intros merr Heq. discriminate Heq.
Defined.

(** X10.  [DeleteMulti] returns a nil error when every chunk call returned
    nil, and for no key at all; it returns a non-nil error when some chunk
    call failed with a single error, and when some chunk call failed with
    an itemized error holding a non-nil element inside the range of the
    chunk. *)
Theorem DeleteMulti_reports_failures `{Host} (sched : Schedule)
  (keys : list Key) :
  valid_schedule sched ->
  let g := goroutines (len keys) deleteMultiLimit in
  let resp := DeleteMulti_resp keys in
  let err := (DeleteMulti sched keys).1 in
  ((forall i, 0 <= i < g -> resp i = None) -> err = None)
  /\ (keys = [] -> err = None)
  /\ (forall i e, keys <> [] -> 0 <= i < g -> resp i = Some e -> scalar e ->
        err <> None)
  /\ (forall i merr (j : nat) e, keys <> [] -> 0 <= i < g ->
        resp i = Some (MultiError merr) -> merr !! j = Some (Some e) ->
        i * deleteMultiLimit + Z.of_nat j < (chunk (len keys) deleteMultiLimit i).2 ->
        err <> None).
Proof.
  intros Hv g resp err. unfold err. rewrite DeleteMulti_error.
  destruct (dispatch_error_spec resp (len keys) deleteMultiLimit sched Hv)
    as (Hok & Hempty & Hscalar & Hitem);
    [unfold len; lia|unfold deleteMultiLimit; lia|].
  assert (Hpos : keys <> [] -> (len keys =? 0) = false /\ 1 <= len keys).
  { intros Hne. destruct keys; [congruence|]. unfold len. cbn [length].
    split; [apply Z.eqb_neq; lia|lia]. }
  split; [|split; [|split]].
  - intros Hall. destruct (len keys =? 0); [reflexivity|]. apply Hok, Hall.
  - intros ->. reflexivity.
  - intros i e Hne. destruct (Hpos Hne) as [-> Hn]. apply Hscalar, Hn.
  - intros i merr j e Hne. destruct (Hpos Hne) as [-> _]. apply Hitem.
Qed.

Lemma DeleteMulti_reports_failures_witness :
  (DeleteMulti (H := Sample.host) in_order
     [mkKey "User" 3 EmptyString None; mkKey "User" 404 EmptyString None]).1
  <> None.
Proof.
  destruct (DeleteMulti_reports_failures (H := Sample.host) in_order
              [mkKey "User" 3 EmptyString None; mkKey "User" 404 EmptyString None]
              in_order_valid) as (_ & _ & _ & Hitem).
  apply (Hitem 0 [None; Some ErrNoSuchEntity] 1%nat ErrNoSuchEntity).
  - discriminate.
  - split; [lia|reflexivity].
  - reflexivity.
  - reflexivity.
  - reflexivity.
Defined.

(** ** Reads *)

(** X11.  Outside a transaction [GetMulti] never asks the service about
    a key of the batch: once every element has a complete key it makes one
    call with no key, returns nil and leaves the destination as it was,
    whatever the service holds, for every order of the goroutines and both
    settings of the toggle; so does [Get] on a pointer. *)
Theorem GetMulti_outside_transaction_reads_nothing `{Host} (sched : Schedule)
  (ignore : bool) (items : list Entity) :
  valid_schedule sched ->
  Forall (acceptable false) items ->
  let g := {| inTransaction := false |} in
  GetMulti sched g ignore (SliceOf items)
  = Some (None, items, [CallGetMulti [] []])
  /\ forall x, items = [x] -> isPtr x = true ->
       Get sched g ignore x = Some (None, x, [CallGetMulti [] []]).
Proof.
  intros Hv Hacc g.
  destruct (extractKeys_loop_acceptable false items Hacc) as [keys Hkeys].
  assert (Hrun : GetMulti sched g ignore (SliceOf items)
                 = Some (None, items, [CallGetMulti [] []])).
  { apply (GetMulti_chunked sched ignore (SliceOf items) keys Hv Hkeys). }
  split; [exact Hrun|]. intros x -> Hptr. unfold Get. rewrite Hptr. simpl.
  fold g. rewrite Hrun. reflexivity.
Qed.

Lemma GetMulti_outside_transaction_reads_nothing_witness :
  Get (H := Sample.host) in_order {| inTransaction := false |} false
    (Sample.UserInt 404)
  = Some (None, Sample.UserInt 404, [CallGetMulti [] []]).
Proof.
  apply (GetMulti_outside_transaction_reads_nothing (H := Sample.host) in_order
           false [Sample.UserInt 404] in_order_valid).
  - repeat constructor. eexists _, _. split; reflexivity.
  - reflexivity.
  - reflexivity.
Defined.

(** X12.  Inside a transaction, with the toggle on, an itemized error of
    the service whose elements are all nil or field mismatches is
    tolerated as a whole: [GetMulti] returns nil and the destinations as
    loaded. *)
Theorem GetMulti_tx_tolerates_mismatches `{Host} (sched : Schedule)
  (items : list Entity) (keys : list Key) v' merr :
  extractKeys (SliceOf items) false = inl keys ->
  ds_GetMulti keys items = (v', Some (MultiError merr)) ->
  len keys <= len merr ->
  Forall (fun e => e = None \/ errFieldMismatch e = true) merr ->
  GetMulti sched {| inTransaction := true |} true (SliceOf items)
  = Some (None, v', [CallGetMulti keys items]).
Proof.
  intros Hkeys Hsvc Hlen Hall. unfold GetMulti. rewrite Hkeys.
  cbn [inTransaction items_of]. rewrite Hsvc. cbn [GetMulti_tx_collect].
  destruct (GetMulti_tx_outcomes_spec true merr (len keys))
    as (m & a & Hrun & _ & _ & Hflag); [unfold len in *; lia|].
  rewrite Hrun. destruct a; [|reflexivity].
  destruct (proj1 Hflag eq_refl) as (p & e & _ & Hp & Hne).
  rewrite Forall_forall in Hall.
  destruct (Hall e) as [->|Hfm].
  - apply list_elem_of_lookup. eauto.
  - destruct Hne. reflexivity.
  - destruct Hne. unfold tx_slot. rewrite Hfm. simpl.
    rewrite andb_false_r. reflexivity.
Qed.

Lemma GetMulti_tx_tolerates_mismatches_witness :
  GetMulti (H := Sample.host) in_order {| inTransaction := true |} true
    (SliceOf [Sample.UserInt 5; Sample.UserInt 422])
  = Some (None, [Sample.UserInt 5; Sample.UserInt 422],
          [CallGetMulti [mkKey "User" 5 EmptyString None;
                         mkKey "User" 422 EmptyString None]
             [Sample.UserInt 5; Sample.UserInt 422]]).
Proof.
  apply (GetMulti_tx_tolerates_mismatches (H := Sample.host) in_order
           [Sample.UserInt 5; Sample.UserInt 422]
           [mkKey "User" 5 EmptyString None; mkKey "User" 422 EmptyString None]
           [Sample.UserInt 5; Sample.UserInt 422]
           [None; Some Sample.mismatch]).
  - reflexivity.
  - reflexivity.
  - unfold len. simpl. lia.
  - apply Forall_cons. split; [left; reflexivity|].
    apply Forall_cons. split; [right; reflexivity|constructor].
Defined.

Lemma fill_all {A} (x z : A) (n : Z) :
  fill (make z n) 0 n x = replicate (Z.to_nat n) x.
Proof.
  apply list_eq. intros p. rewrite fill_lookup by lia. rewrite length_make.
  case_decide as Hp.
  - rewrite lookup_replicate_2 by lia. reflexivity.
  - rewrite !lookup_ge_None_2; [reflexivity| |];
      rewrite ?length_make, ?length_replicate; lia.
Qed.

Lemma realError_loop_replicate `{Host} (e : error) (k : nat) :
  realError_loop (Some e) (replicate k (Some e)) = false.
Proof.
  apply realError_loop_uniform, Forall_forall.
  intros x Hx. apply elem_of_replicate in Hx as [-> _]. reflexivity.
Qed.

(** X13.  Inside a transaction, when the service call fails with a single
    error on a non-empty batch, [GetMulti] returns that error itself,
    except that a field mismatch and the two always-itemized sentinels
    come back as an array holding the error once per element; on an empty
    batch the error is dropped and nil is returned. *)
Theorem GetMulti_tx_single_error `{Host} (sched : Schedule) (ignore : bool)
  (items : list Entity) (keys : list Key) v' (e : error) :
  extractKeys (SliceOf items) false = inl keys ->
  ds_GetMulti keys items = (v', Some e) ->
  scalar e ->
  GetMulti sched {| inTransaction := true |} ignore (SliceOf items)
  = Some (match keys with
          | [] => None
          | _ :: _ =>
              if errFieldMismatch (Some e)
                 || (isErrInvalidEntityType (Some e) || isErrNoSuchEntity (Some e))
              then Some (MultiError (replicate (length keys) (Some e)))
              else Some e
          end, v', [CallGetMulti keys items]).
Proof.
  intros Hkeys Hsvc Hscalar. unfold GetMulti. rewrite Hkeys.
  cbn [inTransaction items_of]. rewrite Hsvc.
  assert (Hcollect : GetMulti_tx_collect ignore e (len keys)
                     = Some (replicate (length keys) (Some e), true)).
  { destruct e; try (simpl; rewrite fill_all; unfold len; rewrite Nat2Z.id;
                     reflexivity).
    destruct (Hscalar errs eq_refl). }
  rewrite Hcollect. destruct keys as [|k keys]; [reflexivity|].
  cbn [length replicate]. unfold realError.
  rewrite realError_loop_replicate.
  destruct (errFieldMismatch (Some e)); [reflexivity|].
  destruct (isErrInvalidEntityType (Some e) || isErrNoSuchEntity (Some e));
    reflexivity.
Qed.

Lemma GetMulti_tx_single_error_witness :
  (GetMulti (H := Sample.host) in_order {| inTransaction := true |} true
     (SliceOf [Sample.UserInt 5; Sample.UserInt 503]))
  = Some (Some (errorString "datastore: unavailable"),
          [Sample.UserInt 5; Sample.UserInt 503],
          [CallGetMulti [mkKey "User" 5 EmptyString None;
                         mkKey "User" 503 EmptyString None]
             [Sample.UserInt 5; Sample.UserInt 503]]).
Proof.
  apply (GetMulti_tx_single_error (H := Sample.host) in_order true
           [Sample.UserInt 5; Sample.UserInt 503]
           [mkKey "User" 5 EmptyString None; mkKey "User" 503 EmptyString None]
           [Sample.UserInt 5; Sample.UserInt 503]
           (errorString "datastore: unavailable")).
  - reflexivity.
  - reflexivity.
  - intros merr Heq. discriminate Heq.
Defined.

(** ** The single-entity wrappers *)

Lemma extractKeys_single `{Host} (put : bool) (x : Entity) k b :
  getStructKey x = inl (k, b) ->
  (if put then Incomplete k && b = false else Incomplete k = false) ->
  extractKeys (SliceOf [x]) put = inl [k].
Proof.
  intros Hk Hchk. simpl. rewrite Hk. destruct put; simpl; rewrite Hchk; reflexivity.
Qed.

(** X14.  [Put] returns the error of its one entity as a single error,
    whether the service reported it as a single error or as the first
    element of an itemized one; no key is returned with it. *)
Theorem Put_returns_element_error `{Host} (sched : Schedule) (x : Entity)
  (k : Key) (b : bool) (e : error) :
  valid_schedule sched ->
  getStructKey x = inl (k, b) -> Incomplete k && b = false ->
  scalar e ->
  (ds_PutMulti [k] [x]).2 = Some e
  \/ (exists rest, (ds_PutMulti [k] [x]).2 = Some (MultiError (Some e :: rest))) ->
  Put sched x = Some (None, Some e, [CallPutMulti [k] [x]]).
Proof.
  intros Hv Hk Hchk Hscalar Hsvc.
  pose proof (extractKeys_single true x k b Hk Hchk) as Hkeys.
  assert (Hcall : PutMulti_task [k] [x] (mkShared [None] false []) 0
                  = let '(rkeys, pmerr) := ds_PutMulti [k] [x] in
                    match pmerr with
                    | None => mkShared [None] false [CallPutMulti [k] [x]]
                    | Some (MultiError merr) =>
                        mkShared (copy [None] 0 1 merr) true [CallPutMulti [k] [x]]
                    | Some e =>
                        mkShared (fill [None] 0 1 (Some e)) true [CallPutMulti [k] [x]]
                    end) by reflexivity.
  unfold Put, PutMulti. rewrite Hkeys. cbn [items_of].
  rewrite (PutMulti_dispatch_single sched x k Hv), Hcall.
  destruct (ds_PutMulti [k] [x]) as [rkeys resp]. simpl in Hsvc.
  destruct Hsvc as [->|[rest ->]].
  - destruct e; try reflexivity. destruct (Hscalar errs eq_refl).
  - destruct e; try reflexivity. destruct (Hscalar errs eq_refl).
Qed.

Lemma Put_returns_element_error_witness :
  Put (H := Sample.host) in_order (Sample.UserInt 404)
  = Some (None, Some ErrNoSuchEntity,
          [CallPutMulti [mkKey "User" 404 EmptyString None] [Sample.UserInt 404]]).
Proof.
  apply (Put_returns_element_error (H := Sample.host) in_order
           (Sample.UserInt 404) (mkKey "User" 404 EmptyString None) false
           ErrNoSuchEntity in_order_valid).
  - reflexivity.
  - reflexivity.
  - intros merr Heq. discriminate Heq.
  - right. exists []. reflexivity.
Defined.

Lemma DeleteMulti_dispatch_single `{Host} (sched : Schedule) (key : Key) :
  valid_schedule sched ->
  DeleteMulti_dispatch sched [key]
  = DeleteMulti_task [key] (mkShared [None] false []) 0.
Proof.
  intros Hv. unfold DeleteMulti_dispatch.
  change (goroutines (len [key]) deleteMultiLimit) with 1.
  rewrite (valid_schedule_one sched Hv). reflexivity.
Qed.

(** X15.  [Delete] makes one service call with its key; it returns nil
    when that call returns nil, and the error of the key as a single
    error whether the service reported it as a single error or as the
    first element of an itemized one. *)
Theorem Delete_returns_element_error `{Host} (sched : Schedule) (key : Key) :
  valid_schedule sched ->
  (ds_DeleteMulti [key] = None ->
     Delete sched key = Some (None, [CallDeleteMulti [key]]))
  /\ forall e, scalar e ->
       ds_DeleteMulti [key] = Some e
       \/ (exists rest, ds_DeleteMulti [key] = Some (MultiError (Some e :: rest))) ->
       Delete sched key = Some (Some e, [CallDeleteMulti [key]]).
Proof.
  intros Hv.
  assert (Hcall : DeleteMulti_task [key] (mkShared [None] false []) 0
                  = match ds_DeleteMulti [key] with
                    | None => mkShared [None] false [CallDeleteMulti [key]]
                    | Some (MultiError merr) =>
                        mkShared (copy [None] 0 1 merr) true [CallDeleteMulti [key]]
                    | Some e =>
                        mkShared (fill [None] 0 1 (Some e)) true [CallDeleteMulti [key]]
                    end) by reflexivity.
  assert (Hrun : Delete sched key
                 = let '(err, log) :=
                     let s := DeleteMulti_task [key] (mkShared [None] false []) 0 in
                     if anyFlag s then (realError (multiErr s), calls s)
                     else (None, calls s) in
                   match err with
                   | Some (MultiError me) => e ← me !! 0%nat; Some (e, log)
                   | _ => Some (err, log)
                   end).
  { unfold Delete, DeleteMulti. change (len [key] =? 0) with false. cbn iota.
    rewrite (DeleteMulti_dispatch_single sched key Hv). reflexivity. }
  rewrite Hrun, Hcall. split.
  - intros ->. reflexivity.
  - intros e Hscalar [->|[rest ->]].
    + destruct e; try reflexivity. destruct (Hscalar errs eq_refl).
    + destruct e; try reflexivity. destruct (Hscalar errs eq_refl).
Qed.

Lemma Delete_returns_element_error_witness :
  Delete (H := Sample.host) in_order (mkKey "User" 503 EmptyString None)
  = Some (Some (errorString "datastore: unavailable"),
          [CallDeleteMulti [mkKey "User" 503 EmptyString None]]).
Proof.
  destruct (Delete_returns_element_error (H := Sample.host) in_order
              (mkKey "User" 503 EmptyString None) in_order_valid) as [_ Herr].
  apply Herr.
  - intros merr Heq. discriminate Heq.
  - left. reflexivity.
Defined.

(** X16.  [Get] inside a transaction, on a pointer with a complete key:
    a nil service error gives nil and the loaded entity; a single service
    error comes back as it is; the first element of an itemized error
    comes back as a single error, unless it is a field mismatch with the
    toggle on, which gives nil and the loaded entity. *)
Theorem Get_tx_outcomes `{Host} (sched : Schedule) (ignore : bool) (x : Entity)
  (k : Key) (b : bool) :
  getStructKey x = inl (k, b) -> Incomplete k = false -> isPtr x = true ->
  let g := {| inTransaction := true |} in
  let log := [CallGetMulti [k] [x]] in
  (forall d, ds_GetMulti [k] [x] = ([d], None) ->
     Get sched g ignore x = Some (None, d, log))
  /\ (forall v' e, scalar e ->
        ds_GetMulti [k] [x] = (v', Some e)
        \/ (exists rest, ds_GetMulti [k] [x] = (v', Some (MultiError (Some e :: rest)))
                         /\ ignore && errFieldMismatch (Some e) = false) ->
        exists d, Get sched g ignore x = Some (Some e, d, log))
  /\ (forall d e rest, errFieldMismatch (Some e) = true -> ignore = true ->
        ds_GetMulti [k] [x] = ([d], Some (MultiError (Some e :: rest))) ->
        Get sched g ignore x = Some (None, d, log)).
Proof.
  intros Hk Hinc Hptr g log.
  pose proof (extractKeys_single false x k b Hk Hinc) as Hkeys.
  assert (Hrun : Get sched g ignore x
                 = match
                     (let '(v', err) := ds_GetMulti [k] [x] in
                      match err with
                      | None => Some (None, v', log)
                      | Some e =>
                          match GetMulti_tx_collect ignore e 1 with
                          | None => None
                          | Some (m, true) => Some (realError m, v', log)
                          | Some (_, false) => Some (None, v', log)
                          end
                      end)
                   with
                   | None => None
                   | Some (Some (MultiError me), _, lg) =>
                       e ← me !! 0%nat; Some (e, x, lg)
                   | Some (Some e, _, lg) => Some (Some e, x, lg)
                   | Some (None, dsts, lg) => d ← dsts !! 0%nat; Some (None, d, lg)
                   end).
  { unfold Get, GetMulti. rewrite Hptr, Hkeys. reflexivity. }
  rewrite Hrun. split; [|split].
  - intros d ->. reflexivity.
  - intros v' e Hscalar [->|(rest & -> & Hkeep)].
    + exists x. destruct e; try reflexivity. destruct (Hscalar errs eq_refl).
    + exists x. destruct ignore; simpl in Hkeep.
      * destruct e; try discriminate Hkeep; try reflexivity.
        destruct (Hscalar errs eq_refl).
      * destruct e; try reflexivity. destruct (Hscalar errs eq_refl).
  - intros d e rest Hfm -> ->. destruct e; try discriminate Hfm. reflexivity.
Qed.

Lemma Get_tx_outcomes_witness :
  Get (H := Sample.host) in_order {| inTransaction := true |} true
    (Sample.UserInt 422)
  = Some (None, Sample.UserInt 422,
          [CallGetMulti [mkKey "User" 422 EmptyString None] [Sample.UserInt 422]]).
Proof.
  destruct (Get_tx_outcomes (H := Sample.host) in_order true (Sample.UserInt 422)
              (mkKey "User" 422 EmptyString None) false eq_refl eq_refl eq_refl)
    as (_ & _ & Htol).
  apply (Htol (Sample.UserInt 422) Sample.mismatch []); reflexivity.
Defined.

(** ** The query materializer *)




(** ** Keys of single entities *)

(** X18.  [Key] returns the derived key of an entity whenever the
    derivation succeeds, also when that key is incomplete, and nil only
    when it fails; the keys that [extractKeys] and [PutMulti] return for a
    batch are, element by element, the keys [Key] returns, and [Kind]
    returns their kinds. *)
Theorem Key_agrees_with_extractKeys `{Host} (sched : Schedule) (put : bool)
  (items : list Entity) (keys : list Key) :
  extractKeys (SliceOf items) put = inl keys ->
  Gosto_Key <$> items = Some <$> keys
  /\ Gosto_Kind <$> items = (fun k => Some (Kind k)) <$> keys
  /\ (put = true -> Some <$> (PutMulti sched (SliceOf items)).1.1 = Gosto_Key <$> items)
  /\ (forall x, Gosto_Key x = None <-> exists err, getStructKey x = inr err).
Proof.
  intros Hkeys.
  destruct (extractKeys_loop_inl put items keys Hkeys) as [_ Hder].
  assert (Hkey : Gosto_Key <$> items = Some <$> keys).
  { clear Hkeys. induction Hder as [|x k items keys [b Hk] _ IH]; [reflexivity|].
    rewrite !fmap_cons, IH. unfold Gosto_Key, KeyError. rewrite Hk. reflexivity. }
  split; [exact Hkey|]. split; [|split].
  - clear Hkeys Hkey. induction Hder as [|x k items keys [b Hk] _ IH]; [reflexivity|].
    rewrite !fmap_cons, IH. unfold Gosto_Kind, KeyError. rewrite Hk. reflexivity.
  - intros ->. destruct (PutMulti_accepted sched items keys Hkeys) as [err ->].
    simpl. symmetry. exact Hkey.
  - intros x. unfold Gosto_Key, KeyError.
    destruct (getStructKey x) as [[k b]|err]; simpl.
    + split; [discriminate|]. intros [err Herr]. discriminate Herr.
    + split; [eauto|reflexivity].
Qed.

Lemma Key_agrees_with_extractKeys_witness :
  Gosto_Key (H := Sample.host) <$> [Sample.UserInt 0; Sample.UserStr "ann"]
  = [Some (mkKey "User" 0 EmptyString None); Some (mkKey "User" 0 "ann" None)].
Proof.
  destruct (Key_agrees_with_extractKeys (H := Sample.host) in_order true
              [Sample.UserInt 0; Sample.UserStr "ann"]
              [mkKey "User" 0 EmptyString None; mkKey "User" 0 "ann" None]
              eq_refl) as [Hkey _].
  exact Hkey.
Defined.
